(** * The sharded cache of package [cache] (src/demo/demo.go)

    A shallow embedding of [New] and of the methods of [cacheCluster], the
    implementation of the [Cache] interface that routes every key through a
    consistent-hash ring to one of several cache nodes.

    The cluster is a thin routing layer: what it computes is which node is
    asked what, in which order, and how the answers are combined.  The
    embedding therefore runs every method in a small state-and-trace monad:
    the state is the world the nodes act on together with the allocator of
    the Go heap, the trace lists the ring lookups and the delegated calls
    with their answers. *)

From Stdlib Require Import ZArith NArith List String Ascii Lia.
From stdpp Require Import base decidable option list gmap strings.

Local Set Warnings "-register-all".

(** ** Go error values *)

(** The dynamic types of error values that reach the cluster:
    - [errorString]: the pointer returned by [errors.New] and by
      [fmt.Errorf] without a wrapping verb; [addr] is the address of the
      allocation, two such errors are [==] exactly when they are the same
      pointer;
    - [wrapError]: the pointer returned by [fmt.Errorf] with a wrapping verb,
      whose [Unwrap] method returns [inner];
    - [errorArray]: the slice type [errorx] returns for several collected
      errors; a slice is not comparable and has no [Unwrap] method;
    - [otherError]: a value of an error type declared elsewhere.  [ty] names
      its dynamic type and [val] the value within the type, so that two of
      them are [==] when both agree; [comparable] tells whether Go can
      compare values of the type; [method] is the [Is(error) bool] method
      of the type when it has one, as an index into the methods the
      program is linked with; [inners] is what its [Unwrap] method gives:
      nothing when there is no such method or it returns nil, one error for
      [Unwrap() error], the non-nil members for [Unwrap() []error], which
      [errors.Is] follows from Go 1.20 on. *)
Inductive err : Type :=
| errorString (addr : N) (s : string)
| wrapError (addr : N) (msg : string) (inner : err)
| errorArray (errs : list err)
| otherError (ty val : N) (comparable : bool) (method : option N) (msg : string)
    (inners : list err).

(** A value of interface type [error]: [None] is [nil]. *)
Definition error : Type := option err.

Module errors.

(** [reflectlite.TypeOf(target).Comparable()] *)
Definition Comparable (t : err) : bool :=
  match t with
  | errorArray _ => false
  | otherError _ _ comparable _ _ _ => comparable
  | _ => true
  end.

(** [err == target] on two non-nil interface values of comparable dynamic
    type: the same dynamic type and the same pointer or value. *)
Definition eq (e t : err) : bool :=
  match e, t with
  | errorString a _, errorString b _ => (a =? b)%N
  | wrapError a _ _, wrapError b _ _ => (a =? b)%N
  | otherError ty val _ _ _ _, otherError ty' val' _ _ _ _ => (ty =? ty')%N && (val =? val')%N
  | _, _ => false
  end.

(** The [Is(error) bool] method of an error, where its type has one. *)
Definition method_of (e : err) : option N :=
  match e with
  | otherError _ _ _ method _ _ => method
  | _ => None
  end.

(** [x.Is(target)] for an error [x] with such a method. *)
Definition accepts (methods : N → err → bool) (e t : err) : bool :=
  match method_of e with
  | Some m => methods m t
  | None => false
  end.

(** The errors an error wraps directly: what its [Unwrap] method gives. *)
Definition inners_of (e : err) : list err :=
  match e with
  | wrapError _ _ inner => [inner]
  | otherError _ _ _ _ _ inners => inners
  | _ => []
  end.

(** The loop of [errors.Is]: compare, ask the [Is] method, then go on with
    what [Unwrap] gives, until there is nothing left.  [methods] interprets
    the [Is] methods. *)
Fixpoint is' (methods : N → err → bool) (e t : err) (targetComparable : bool) : bool :=
  if targetComparable && eq e t then true
  else if accepts methods e t then true
  else match e with
       | wrapError _ _ inner => is' methods inner t targetComparable
       | otherError _ _ _ _ _ inners =>
           (fix any (l : list err) : bool :=
              match l with
              | [] => false
              | x :: l' => if is' methods x t targetComparable then true else any l'
              end) inners
       | _ => false
       end.

(** [errors.Is(err, target)] *)
Definition Is (methods : N → err → bool) (e target : error) : bool :=
  match e, target with
  | Some e, Some t => is' methods e t (Comparable t)
  | None, None => true
  | _, _ => false
  end.

(** The [Error() string] method.  An [errorArray] prints its members one
    per line. *)
Fixpoint Error (e : err) : string :=
  match e with
  | errorString _ s => s
  | wrapError _ msg _ => msg
  | errorArray errs =>
      (fix lines (l : list err) : string :=
         match l with
         | [] => EmptyString
         | [x] => Error x
         | x :: l' => Error x +:+ String (ascii_of_nat 10) (lines l')
         end) errs
  | otherError _ _ _ _ msg _ => msg
  end.

End errors.

(** Modelled from the spec: [errorx.BatchError] is imported from the go-zero
    library and is not among the sources.  The spec describes it as the
    composite of zero or more errors of a multi-key operation, empty when the
    batch fully succeeded.  [Add] appends a non-nil error, [Err] is [nil] for
    the empty collection, the error itself for a single one and the
    [errorArray] of all of them otherwise. *)
Module BatchError.

Definition t : Type := list err.

Definition zero : t := [].

Definition Add (be : t) (e : error) : t :=
  match e with
  | Some e => be ++ [e]
  | None => be
  end.

Definition Err (be : t) : error :=
  match be with
  | [] => None
  | [e] => Some e
  | _ => Some (errorArray be)
  end.

End BatchError.

(** ** What the cluster is built on *)

(** The types the package takes from elsewhere. *)
Class Types := {
  World : Type;              (* everything the cache nodes read and write *)
  Node : Type;               (* a cache node, as stored in the ring; New puts only
                                values made by NewNode there, so the assertion
                                c.(Cache) of the methods holds *)
  Node_eq_dec :: EqDecision Node;
  Node_countable :: Countable Node;
  Context : Type;            (* context.Context *)
  Val : Type;                (* the interface{} a value is read into or from *)
  Query : Type;              (* func(val interface{}) error *)
  QueryExpire : Type;        (* func(val interface{}, expire time.Duration) error *)
  ConsistentHash : Type;     (* hash.ConsistentHash *)
  NodeConf : Type;
  Redis : Type;
  SingleFlight : Type;       (* syncx.SingleFlight *)
  Stat : Type;
  Option : Type;
}.

(** time.Duration is an int64 count of nanoseconds. *)
Definition Duration : Type := Z.

(** A call of one method of the [Cache] interface, with its arguments. *)
Inductive Request `{Types} : Type :=
| ReqDel (keys : list string)
| ReqDelCtx (ctx : Context) (keys : list string)
| ReqGet (key : string) (val : Val)
| ReqGetCtx (ctx : Context) (key : string) (val : Val)
| ReqSet (key : string) (val : Val)
| ReqSetCtx (ctx : Context) (key : string) (val : Val)
| ReqSetWithExpire (key : string) (val : Val) (expire : Duration)
| ReqSetWithExpireCtx (ctx : Context) (key : string) (val : Val) (expire : Duration)
| ReqTake (val : Val) (key : string) (query : Query)
| ReqTakeCtx (ctx : Context) (val : Val) (key : string) (query : Query)
| ReqTakeWithExpire (val : Val) (key : string) (query : QueryExpire)
| ReqTakeWithExpireCtx (ctx : Context) (val : Val) (key : string) (query : QueryExpire).

(** The functions the package takes from elsewhere. *)
Class Externals `{Types} := {
  (* context.Background() *)
  Background : Context;
  (* what a node does with a request: its answer and the world afterwards *)
  serve : Node → Request → World → error * World;
  (* the IsNotFound method of a node *)
  node_IsNotFound : Node → error → bool;
  (* the Is(error) bool methods of the error types declared elsewhere *)
  Is_method : N → err → bool;
  (* hash.NewConsistentHash() and the methods AddWithWeight and Get of the ring *)
  NewConsistentHash : ConsistentHash;
  AddWithWeight : ConsistentHash → Node → Z → ConsistentHash;
  hash_Get : ConsistentHash → string → option Node;
  (* the order in which range visits the entries of a Go map: any order *)
  map_range : list (Node * list string) → list (Node * list string);
  map_range_perm : ∀ l, map_range l ≡ₚ l;
  (* strconv.Quote, the verb q of fmt *)
  Quote : string → string;
  (* the rest of package cache: configuration and node construction *)
  Weight : NodeConf → Z;
  NewRedis : NodeConf → Redis;
  NewNode : Redis → SingleFlight → Stat → error → list Option → Node;
  TotalWeights : list NodeConf → Z;
}.

(** Modelled from the spec: [TotalWeights] is part of package cache but not
    among the sources; the spec calls it the total weight across all
    registered nodes. *)
Definition sum_weights {A : Type} (weight : A → Z) (c : list A) : Z :=
  fold_right (λ node acc, weight node + acc)%Z 0%Z c.

(** ** The monad the methods run in *)

(** What the cluster is seen to do: look a key up in the ring, or call a
    method of a node and get its answer. *)
Inductive Event `{Types} : Type :=
| EvLookup (key : string) (found : option Node)
| EvCall (c : Node) (r : Request) (answer : error).

Record State `{Types} : Type := mkState {
  world : World;
  heap_next : N;   (* the address of the next error value allocated here *)
}.

Record Outcome `{Types} (A : Type) : Type := mkOutcome {
  value : A;
  final : State;
  trace : list Event;
}.
Arguments mkState {_} _ _.
Arguments mkOutcome {_ _} _ _ _.
Arguments value {_ _} _.
Arguments final {_ _} _.
Arguments trace {_ _} _.

Definition M `{Types} (A : Type) : Type := State → Outcome A.

Definition ret `{Types} {A : Type} (a : A) : M A :=
  λ s, mkOutcome a s [].

Definition bind `{Types} {A B : Type} (m : M A) (k : A → M B) : M B :=
  λ s, let o := m s in
       let o' := k (value o) (final o) in
       mkOutcome (value o') (final o') (trace o ++ trace o').

Notation "'let*' x := m 'in' k" := (bind m (λ x, k))
  (at level 10, x pattern, m at level 100, k at level 200).

(** [for _, x := range l { acc = body(acc, x) }] *)
Fixpoint for_range `{Types} {A B : Type} (l : list B) (body : A → B → M A) (acc : A) : M A :=
  match l with
  | [] => ret acc
  | x :: l' => let* acc' := body acc x in for_range l' body acc'
  end.

(** The delegated calls of a trace, and the answers that were errors. *)
Definition calls `{Types} (tr : list Event) : list (Node * Request) :=
  omap (λ ev, match ev with EvCall c r _ => Some (c, r) | _ => None end) tr.

Definition failures `{Types} (tr : list Event) : list err :=
  omap (λ ev, match ev with EvCall _ _ answer => answer | _ => None end) tr.

Definition lookups `{Types} (tr : list Event) : list string :=
  omap (λ ev, match ev with EvLookup key _ => Some key | _ => None end) tr.

(** ** cacheCluster *)

Module cacheCluster.
Section methods.
Context `{Externals}.

Record t : Type := mk {
  dispatcher : ConsistentHash;
  errNotFound : error;
}.

(** [cc.dispatcher.Get(key)] *)
Definition dispatcher_Get (cc : t) (key : string) : M (option Node) :=
  λ s, let found := hash_Get (dispatcher cc) key in
       mkOutcome found s [EvLookup key found].

(** [c.(Cache).Method(args)] on a node [c] taken from the ring. *)
Definition call (c : Node) (r : Request) : M error :=
  λ s, let '(answer, w) := serve c r (world s) in
       mkOutcome answer (mkState w (heap_next s)) [EvCall c r answer].

(** [fmt.Errorf] with a format that wraps nothing: a fresh [errorString]. *)
Definition fmt_Errorf (msg : string) : M error :=
  λ s, mkOutcome (Some (errorString (heap_next s) msg))
                 (mkState (world s) (N.succ (heap_next s))) [].

(** The text of [fmt.Errorf("key %q not found", key)]. *)
Definition key_not_found (key : string) : string :=
  "key " +:+ Quote key +:+ " not found".

(** The first loop of the default case of [DelCtx], one key. *)
Definition route (cc : t) (acc : BatchError.t * gmap Node (list string)) (key : string)
  : M (BatchError.t * gmap Node (list string)) :=
  let '(be, nodes) := acc in
  let* c := dispatcher_Get cc key in
  match c with
  | None =>
      let* e := fmt_Errorf (key_not_found key) in
      ret (BatchError.Add be e, nodes)
  | Some c =>
      ret (be, <[c := default [] (nodes !! c) ++ [key]]> nodes)
  end.

(** The second loop of the default case of [DelCtx], one node. *)
Definition del_batch (ctx : Context) (be : BatchError.t) (entry : Node * list string)
  : M BatchError.t :=
  let '(c, ks) := entry in
  let* e := call c (ReqDelCtx ctx ks) in
  match e with
  | Some _ => ret (BatchError.Add be e)
  | None => ret be
  end.

Definition DelCtx (cc : t) (ctx : Context) (keys : list string) : M error :=
  match keys with
  | [] => ret None
  | [key] =>
      let* c := dispatcher_Get cc key in
      match c with
      | None => ret (errNotFound cc)
      | Some c => call c (ReqDelCtx ctx [key])
      end
  | _ =>
      let* (be, nodes) := for_range keys (route cc) (BatchError.zero, ∅) in
      let* be := for_range (map_range (map_to_list nodes)) (del_batch ctx) be in
      ret (BatchError.Err be)
  end.

Definition Del (cc : t) (keys : list string) : M error :=
  DelCtx cc Background keys.

Definition GetCtx (cc : t) (ctx : Context) (key : string) (val : Val) : M error :=
  let* c := dispatcher_Get cc key in
  match c with
  | None => ret (errNotFound cc)
  | Some c => call c (ReqGetCtx ctx key val)
  end.

Definition Get (cc : t) (key : string) (val : Val) : M error :=
  GetCtx cc Background key val.

Definition IsNotFound (cc : t) (e : error) : bool :=
  errors.Is Is_method e (errNotFound cc).

Definition SetCtx (cc : t) (ctx : Context) (key : string) (val : Val) : M error :=
  let* c := dispatcher_Get cc key in
  match c with
  | None => ret (errNotFound cc)
  | Some c => call c (ReqSetCtx ctx key val)
  end.

Definition Set' (cc : t) (key : string) (val : Val) : M error :=
  SetCtx cc Background key val.

Definition SetWithExpireCtx (cc : t) (ctx : Context) (key : string) (val : Val)
    (expire : Duration) : M error :=
  let* c := dispatcher_Get cc key in
  match c with
  | None => ret (errNotFound cc)
  | Some c => call c (ReqSetWithExpireCtx ctx key val expire)
  end.

Definition SetWithExpire (cc : t) (key : string) (val : Val) (expire : Duration) : M error :=
  SetWithExpireCtx cc Background key val expire.

Definition TakeCtx (cc : t) (ctx : Context) (val : Val) (key : string) (query : Query)
  : M error :=
  let* c := dispatcher_Get cc key in
  match c with
  | None => ret (errNotFound cc)
  | Some c => call c (ReqTakeCtx ctx val key query)
  end.

Definition Take (cc : t) (val : Val) (key : string) (query : Query) : M error :=
  TakeCtx cc Background val key query.

Definition TakeWithExpireCtx (cc : t) (ctx : Context) (val : Val) (key : string)
    (query : QueryExpire) : M error :=
  let* c := dispatcher_Get cc key in
  match c with
  | None => ret (errNotFound cc)
  | Some c => call c (ReqTakeWithExpireCtx ctx val key query)
  end.

Definition TakeWithExpire (cc : t) (val : Val) (key : string) (query : QueryExpire)
  : M error :=
  TakeWithExpireCtx cc Background val key query.

End methods.
End cacheCluster.

(** ** The Cache interface and New *)

(** A value of interface type [Cache] as [New] makes them: a node or a
    cluster. *)
Inductive Cache `{Externals} : Type :=
| Cache_node (c : Node)
| Cache_cluster (cc : cacheCluster.t).

(** Calling a method through the interface runs the method of the dynamic
    type. *)
Definition invoke `{Externals} (cache : Cache) (r : Request) : M error :=
  match cache with
  | Cache_node c => cacheCluster.call c r
  | Cache_cluster cc =>
      match r with
      | ReqDel keys => cacheCluster.Del cc keys
      | ReqDelCtx ctx keys => cacheCluster.DelCtx cc ctx keys
      | ReqGet key val => cacheCluster.Get cc key val
      | ReqGetCtx ctx key val => cacheCluster.GetCtx cc ctx key val
      | ReqSet key val => cacheCluster.Set' cc key val
      | ReqSetCtx ctx key val => cacheCluster.SetCtx cc ctx key val
      | ReqSetWithExpire key val expire => cacheCluster.SetWithExpire cc key val expire
      | ReqSetWithExpireCtx ctx key val expire =>
          cacheCluster.SetWithExpireCtx cc ctx key val expire
      | ReqTake val key query => cacheCluster.Take cc val key query
      | ReqTakeCtx ctx val key query => cacheCluster.TakeCtx cc ctx val key query
      | ReqTakeWithExpire val key query => cacheCluster.TakeWithExpire cc val key query
      | ReqTakeWithExpireCtx ctx val key query =>
          cacheCluster.TakeWithExpireCtx cc ctx val key query
      end
  end.

(** How a call ends: [log.Fatal] prints its message and exits the process,
    otherwise the function returns. *)
Inductive Exit (A : Type) : Type :=
| Fatal (msg : string)
| Returned (a : A).
Arguments Fatal {_} _.
Arguments Returned {_} _.

Definition New `{Externals} (c : list NodeConf) (barrier : SingleFlight) (st : Stat)
    (errNotFound : error) (opts : list Option) : Exit Cache :=
  if (length c =? 0)%nat || (TotalWeights c <=? 0)%Z then Fatal "no cache nodes"
  else
    match c with
    | [node] => Returned (Cache_node (NewNode (NewRedis node) barrier st errNotFound opts))
    | _ =>
        let dispatcher :=
          fold_left (λ dispatcher node,
                       let cn := NewNode (NewRedis node) barrier st errNotFound opts in
                       AddWithWeight dispatcher cn (Weight node))
                    c NewConsistentHash in
        Returned (Cache_cluster (cacheCluster.mk dispatcher errNotFound))
    end.

(** ** Words of the specification *)

Section vocabulary.
Context `{Externals}.

(** The keys of a call that the ring gives to node [c], in call order. *)
Definition owned_by (cc : cacheCluster.t) (c : Node) (keys : list string) : list string :=
  filter (λ key, hash_Get (cacheCluster.dispatcher cc) key = Some c) keys.

(** The keys of a call for which the ring finds no node, in call order. *)
Definition unresolved (cc : cacheCluster.t) (keys : list string) : list string :=
  filter (λ key, hash_Get (cacheCluster.dispatcher cc) key = None) keys.

(** One routing error for each of [keys], allocated from address [a] on. *)
Fixpoint routing_errors (a : N) (keys : list string) : list err :=
  match keys with
  | [] => []
  | key :: keys' =>
      errorString a (cacheCluster.key_not_found key) :: routing_errors (N.succ a) keys'
  end.

(** The map of the default case of [DelCtx] after its first loop. *)
Definition grouped (cc : cacheCluster.t) (nodes : gmap Node (list string))
    (keys : list string) : gmap Node (list string) :=
  fold_left (λ nodes key,
               match hash_Get (cacheCluster.dispatcher cc) key with
               | Some c => <[c := default [] (nodes !! c) ++ [key]]> nodes
               | None => nodes
               end) keys nodes.

(** The trace of the first loop of [DelCtx]: one lookup per key. *)
Definition lookup_events (cc : cacheCluster.t) (keys : list string) : list Event :=
  map (λ key, EvLookup key (hash_Get (cacheCluster.dispatcher cc) key)) keys.

(** The requests of the second loop, in the order the map is ranged. *)
Definition batch_requests (ctx : Context) (l : list (Node * list string))
  : list (Node * Request) :=
  map (λ entry, (entry.1, ReqDelCtx ctx entry.2)) l.

(** A single-key method [m] for [key] delegates request [r]: with no node
    for the key it answers the sentinel of the cluster and calls nobody,
    otherwise it is the call of [r] on the node the ring found. *)
Definition delegates (cc : cacheCluster.t) (key : string) (m : M error) (r : Request) : Prop :=
  ∀ s : State,
    match hash_Get (cacheCluster.dispatcher cc) key with
    | None => m s = mkOutcome (cacheCluster.errNotFound cc) s [EvLookup key None]
    | Some c =>
        let o := cacheCluster.call c r s in
        m s = mkOutcome (value o) (final o) (EvLookup key (Some c) :: trace o)
    end.

(** The text of an error names a key when the key occurs in it. *)
Definition mentions (e : err) (key : string) : bool :=
  bool_decide (is_Some (String.index 0 key (errors.Error e))).

End vocabulary.

(** [e] is [t] under [==]: the same dynamic type and the same pointer or
    value. *)
Inductive identical : err → err → Prop :=
| identical_errorString a s s' : identical (errorString a s) (errorString a s')
| identical_wrapError a msg msg' inner inner' :
    identical (wrapError a msg inner) (wrapError a msg' inner')
| identical_otherError ty val c c' m m' msg msg' l l' :
    identical (otherError ty val c m msg l) (otherError ty val c' m' msg' l').


(** What the code looks for: an error, [e] itself or one it wraps directly
    or in several steps, that is [==] to a target of comparable type or
    whose [Is] method accepts the target. *)
Inductive matches (methods : N → err → bool) : err → err → Prop :=
| matches_equal e t :
    errors.Comparable t = true → identical e t → matches methods e t
| matches_method e t : errors.accepts methods e t = true → matches methods e t
| matches_inner e inner t :
    inner ∈ errors.inners_of e → matches methods inner t → matches methods e t.



(** ** A small cluster to run *)

Module Example.

Definition dq : string := String (ascii_of_nat 34) EmptyString.

#[export] Instance types : Types := {|
  World := list (nat * list string);   (* the batches deleted so far *)
  Node := nat;
  Context := unit;
  Val := nat;
  Query := nat;
  QueryExpire := nat;
  ConsistentHash := list nat;          (* the nodes on the ring *)
  NodeConf := Z * nat;                 (* weight and address of the store *)
  Redis := nat;
  SingleFlight := unit;
  Stat := unit;
  Option := unit;
|}.

Definition refused : err := errorString 7 "connection refused".

(** Node 1 is unreachable; every other node deletes and succeeds. *)
Definition unreachable_1 (c : nat) (r : Request) (w : list (nat * list string))
  : error * list (nat * list string) :=
  match r with
  | ReqDel keys | ReqDelCtx _ keys =>
      if (c =? 1)%nat then (Some refused, w) else (None, w ++ [(c, keys)])
  | _ => (None, w)
  end.

(** A key goes to the node at the position its length selects. *)
Definition by_length (ring : list nat) (key : string) : option nat :=
  match ring with
  | [] => None
  | _ => ring !! (String.length key mod length ring)%nat
  end.

#[export] Instance externals : Externals := {|
  Background := tt;
  serve := unreachable_1;
  node_IsNotFound := λ _ e, errors.Is (λ _ _, false) e None;
  Is_method := λ m t,
    match m, t with
    | 0%N, errorString 1 _ => true   (* method 0 accepts the error at address 1 *)
    | _, _ => false
    end;
  NewConsistentHash := [];
  AddWithWeight := λ ring c w, if (0 <? w)%Z then ring ++ [c] else ring;
  hash_Get := by_length;
  map_range := reverse;
  map_range_perm := reverse_Permutation;
  Quote := λ key, dq +:+ key +:+ dq;
  Weight := fst;
  NewRedis := snd;
  NewNode := λ rds _ _ _ _, rds;
  TotalWeights := sum_weights fst;
|}.

Definition s0 : State := mkState [] 100.

(** Nodes 0 and 1 on the ring, no sentinel address clash. *)
Definition notFound : error := Some (errorString 1 "not found").
Definition cc2 : cacheCluster.t := cacheCluster.mk [0; 1]%nat notFound.
Definition cc0 : cacheCluster.t := cacheCluster.mk [] notFound.



End Example.


(** ** Further words for the cluster *)

(** The keys a request names. *)
Definition Request_keys `{Types} (r : Request) : list string :=
  match r with
  | ReqDel keys | ReqDelCtx _ keys => keys
  | ReqGet key _ | ReqGetCtx _ key _
  | ReqSet key _ | ReqSetCtx _ key _
  | ReqSetWithExpire key _ _ | ReqSetWithExpireCtx _ key _ _
  | ReqTake _ key _ | ReqTakeCtx _ _ key _
  | ReqTakeWithExpire _ key _ | ReqTakeWithExpireCtx _ _ key _ => [key]
  end.

(** [e] wrapped by [fmt.Errorf] with a wrapping verb once for each entry of
    [layers], the first entry outermost. *)
Definition wrapped (layers : list (N * string)) (e : err) : err :=
  fold_right (λ layer inner, wrapError layer.1 layer.2 inner) e layers.

(** ** Package main: servers and their manager (src/demo/demo.go) *)

Module main.

(** What package main takes from elsewhere. *)
Class Types := {
  World : Type;     (* what the servers written elsewhere act on *)
  Context : Type;   (* context.Context *)
  Foreign : Type;   (* the implementations of Server other than Server1 and Server2 *)
}.

(** A non-nil value of interface type [Server]. *)
Inductive Server `{Types} : Type :=
| ptr_Server1
| ptr_Server2
| foreign (f : Foreign).

(** The methods of the servers written elsewhere, as far as they return; a
    panic inside one of them is not described here. *)
Class Externals `{Types} := {
  foreign_Start : Foreign → Context → World → (option Server * error) * World;
  foreign_ID : Foreign → World → Z * World;
  foreign_Close : Foreign → World → error * World;
  foreign_IsOpen : Foreign → World → bool * World;
}.

(** How a function ends: it returns, or it panics with the error given to
    [panic] or with the runtime error of a method call on a nil interface. *)
Inductive PanicValue : Type :=
| panic_error (e : err)
| nil_dereference.

Inductive Completion (A : Type) : Type :=
| Normal (a : A)
| Panic (v : PanicValue).
Arguments Normal {_} _.
Arguments Panic {_} _.

Section methods.
Context `{Externals}.

Definition Server_Start (s : Server) (ctx : Context) (w : World)
  : (option Server * error) * World :=
  match s with
  | ptr_Server1 => ((Some ptr_Server1, None), w)
  | ptr_Server2 => ((Some ptr_Server2, None), w)
  | foreign f => foreign_Start f ctx w
  end.

Definition Server_ID (s : Server) (w : World) : Z * World :=
  match s with
  | ptr_Server1 => (0%Z, w)
  | ptr_Server2 => (1%Z, w)
  | foreign f => foreign_ID f w
  end.

Definition Server_Close (s : Server) (w : World) : error * World :=
  match s with
  | ptr_Server1 | ptr_Server2 => (None, w)
  | foreign f => foreign_Close f w
  end.

Definition Server_IsOpen (s : Server) (w : World) : bool * World :=
  match s with
  | ptr_Server1 => (true, w)
  | ptr_Server2 => (false, w)
  | foreign f => foreign_IsOpen f w
  end.

(** A method call made on a server. *)
Inductive Call : Type :=
| CallStart (s : Server) (ctx : Context)
| CallID (s : Server)
| CallClose (s : Server)
| CallIsOpen (s : Server).

(** [var serverList] as it is initialised. *)
Definition serverList : list Server := [ptr_Server1; ptr_Server2].

(** The loop of [Start] over a list of servers: the world afterwards and the
    calls made. *)
Fixpoint start_each (l : list Server) (ctx : Context) (w : World) : World * list Call :=
  match l with
  | [] => (w, [])
  | v :: l' =>
      let '(_, w1) := Server_Start v ctx w in
      let '(w2, tr) := start_each l' ctx w1 in
      (w2, CallStart v ctx :: tr)
  end.

Definition Start (ctx : Context) (w : World) : World * list Call :=
  start_each serverList ctx w.

(** [(m *Manager) Start(ctx, s)]; [s] is [None] for the nil interface. *)
Definition Manager_Start (ctx : Context) (s : option Server) (w : World)
  : Completion error * World * list Call :=
  match s with
  | None => (Normal None, w, [])
  | Some s =>
      let '(open, w1) := Server_IsOpen s w in
      if negb open then (Normal None, w1, [CallIsOpen s])
      else
        let '((v, e), w2) := Server_Start s ctx w1 in
        match e with
        | Some e => (Panic (panic_error e), w2, [CallIsOpen s; CallStart s ctx])
        | None =>
            match v with
            | None => (Panic nil_dereference, w2, [CallIsOpen s; CallStart s ctx])
            | Some v =>
                let '(key, w3) := Server_ID v w2 in
                (Normal None, w3, [CallIsOpen s; CallStart s ctx; CallID v])
            end
        end
  end.

End methods.
End main.

(** ** Package service: the service group (src/core/service/servicegroup.go) *)

Module service.

(** What package service takes from elsewhere: the functions and the
    implementations of [Starter] and [Service] that callers hand in, and what
    running them does to the world. *)
Class Externals := {
  World : Type;
  Func : Type;                       (* func() *)
  call_func : Func → World → World;
  StarterImpl : Type;                (* implementations of Starter *)
  Starter_Start : StarterImpl → World → World;
  ServiceImpl : Type;                (* implementations of Service written elsewhere *)
  impl_Start : ServiceImpl → World → World;
  impl_Stop : ServiceImpl → World → World;
}.

Section methods.
Context `{Externals}.

(** A value of interface type [Service]. *)
Inductive Service : Type :=
| startOnlyService (start : Func)
| starterOnlyService (Starter : StarterImpl)
| implemented (s : ServiceImpl).

Definition WithStart (start : Func) : Service := startOnlyService start.

Definition WithStarter (start : StarterImpl) : Service := starterOnlyService start.

(** [func (s stopper) Stop() {}] *)
Definition stopper_Stop (w : World) : World := w.

Definition startOnlyService_Start (start : Func) (w : World) : World := call_func start w.

(** The methods of a [Service], by dynamic type; the two wrappers take
    [Stop] from the embedded [stopper]. *)
Definition Service_Start (s : Service) (w : World) : World :=
  match s with
  | startOnlyService start => startOnlyService_Start start w
  | starterOnlyService st => Starter_Start st w
  | implemented i => impl_Start i w
  end.

Definition Service_Stop (s : Service) (w : World) : World :=
  match s with
  | startOnlyService _ | starterOnlyService _ => stopper_Stop w
  | implemented i => impl_Stop i w
  end.

(** A method call made on a service of the group. *)
Inductive Call : Type :=
| CallStart (s : Service)
| CallStop (s : Service).

(** The group; [stopped] is the state of the [sync.Once] inside
    [stopOnce]: whether [doStop] has been run through it. *)
Record ServiceGroup : Type := mkGroup {
  services : list Service;
  stopped : bool;
}.

Definition NewServiceGroup : ServiceGroup := mkGroup [] false.

Definition Add (sg : ServiceGroup) (service : Service) : ServiceGroup :=
  mkGroup ([service] ++ services sg) (stopped sg).

(** The loop of [doStop]. *)
Fixpoint stop_each (l : list Service) (w : World) : World * list Call :=
  match l with
  | [] => (w, [])
  | service :: l' =>
      let '(w', tr) := stop_each l' (Service_Stop service w) in
      (w', CallStop service :: tr)
  end.

Definition doStop (sg : ServiceGroup) (w : World) : World * list Call :=
  stop_each (services sg) w.

(** [sg.stopOnce()], with [stopOnce = syncx.Once(sg.doStop)]; it is the whole
    body of [Stop], whose first line also carries a stray word.  [syncx.Once]
    is imported from the go-zero library and is not among the sources; it
    is taken to be what its name and [sync.Once] say: the function it
    returns runs [doStop] the first time it is called and does nothing
    afterwards. *)
Definition stopOnce (sg : ServiceGroup) (w : World) : ServiceGroup * World * list Call :=
  if stopped sg then (sg, w, [])
  else let '(w', tr) := doStop sg w in (mkGroup (services sg) true, w', tr).

Definition Stop (sg : ServiceGroup) (w : World) : ServiceGroup * World * list Call :=
  stopOnce sg w.

(** A group to which [l] was added one by one, the first of [l] first. *)
Definition group_of (l : list Service) : ServiceGroup :=
  fold_left Add l NewServiceGroup.

(** A service made by [WithStart] or [WithStarter]. *)
Definition is_wrapper (s : Service) : Prop :=
  match s with
  | startOnlyService _ | starterOnlyService _ => True
  | implemented _ => False
  end.

End methods.
End service.

(** ** Small instances to run *)

Module Example2.

(** One foreign server, numbered: number 0 fails to start, number 1 starts
    and returns no server, the others start and are closed when odd. *)
#[export] Instance main_types : main.Types := {|
  main.World := list nat;
  main.Context := unit;
  main.Foreign := nat;
|}.

Definition start_failed : err := errorString 3 "listen: address in use".

#[export] Instance main_externals : main.Externals := {|
  main.foreign_Start := λ f _ w,
    match f with
    | 0 => ((None, Some start_failed), w)
    | 1 => ((None, None), w ++ [f])
    | _ => ((Some (main.foreign f), None), w ++ [f])
    end;
  main.foreign_ID := λ f w, (Z.of_nat f, w);
  main.foreign_Close := λ f w, (None, w);
  main.foreign_IsOpen := λ f w, (negb (Nat.odd f) || (f =? 1)%nat, w);
|}.

(** The server that is open and fails to start. *)
Definition failing : main.Server := main.foreign 0.

(** Services that write their name in the world when started or stopped. *)
#[export] Instance service_externals : service.Externals := {|
  service.World := list string;
  service.Func := string;
  service.call_func := λ f w, w ++ [f];
  service.StarterImpl := string;
  service.Starter_Start := λ st w, w ++ [st];
  service.ServiceImpl := string;
  service.impl_Start := λ i w, w ++ [String.append "start " i];
  service.impl_Stop := λ i w, w ++ [String.append "stop " i];
|}.

End Example2.

(** ** The loops of DelCtx *)

Section loops.
Context `{Externals}.
Implicit Types (cc : cacheCluster.t) (keys : list string) (s : State).

Lemma state_eta s : mkState (world s) (heap_next s) = s.
Proof. by destruct s. Qed.

Lemma failures_app (tr tr' : list Event) : failures (tr ++ tr') = failures tr ++ failures tr'.
Proof. apply omap_app. Qed.

Lemma calls_app (tr tr' : list Event) : calls (tr ++ tr') = calls tr ++ calls tr'.
Proof. apply omap_app. Qed.

Lemma lookups_app (tr tr' : list Event) : lookups (tr ++ tr') = lookups tr ++ lookups tr'.
Proof. apply omap_app. Qed.

Lemma lookup_events_calls cc keys : calls (lookup_events cc keys) = [].
Proof. induction keys as [|k keys IH]; [done | exact IH]. Qed.

Lemma lookup_events_failures cc keys : failures (lookup_events cc keys) = [].
Proof. induction keys as [|k keys IH]; [done | exact IH]. Qed.

Lemma lookup_events_lookups cc keys : lookups (lookup_events cc keys) = keys.
Proof. induction keys as [|k keys IH]; [done | cbn; by f_equal]. Qed.

Lemma for_range_cons {A B : Type} (x : B) (l : list B) (body : A → B → M A) (acc : A) s :
  for_range (x :: l) body acc s =
  let o := body acc x s in
  let o' := for_range l body (value o) (final o) in
  mkOutcome (value o') (final o') (trace o ++ trace o').
Proof. reflexivity. Qed.

(** One turn of the first loop. *)
Lemma route_step cc (be : BatchError.t) (nodes : gmap Node (list string)) (key : string) s :
  cacheCluster.route cc (be, nodes) key s =
  match hash_Get (cacheCluster.dispatcher cc) key with
  | Some c =>
      mkOutcome (be, <[c := default [] (nodes !! c) ++ [key]]> nodes) s
                [EvLookup key (Some c)]
  | None =>
      mkOutcome (be ++ [errorString (heap_next s) (cacheCluster.key_not_found key)], nodes)
                (mkState (world s) (N.succ (heap_next s)))
                [EvLookup key None]
  end.
Proof.
  unfold cacheCluster.route, bind, cacheCluster.dispatcher_Get. cbn [value final trace].
  destruct (hash_Get (cacheCluster.dispatcher cc) key); reflexivity.
Qed.

(** The first loop: one lookup per key, one routing error per key without
    a node, the other keys appended to the entry of their node. *)
Lemma route_loop cc keys : ∀ be nodes s,
  for_range keys (cacheCluster.route cc) (be, nodes) s =
  mkOutcome (be ++ routing_errors (heap_next s) (unresolved cc keys), grouped cc nodes keys)
            (mkState (world s) (heap_next s + N.of_nat (length (unresolved cc keys))))
            (lookup_events cc keys).
Proof.
  induction keys as [|key keys IH]; intros be nodes s.
  - cbn. rewrite app_nil_r, N.add_0_r, state_eta. done.
  - rewrite for_range_cons, route_step.
    unfold unresolved. rewrite filter_cons. cbn [grouped fold_left lookup_events map].
    destruct (hash_Get (cacheCluster.dispatcher cc) key) as [c|] eqn:Hc.
    + rewrite decide_False by done. cbn [value final trace].
      rewrite IH. done.
    + rewrite decide_True by done. cbn [value final trace].
      rewrite IH. cbn [value final trace world heap_next routing_errors length app].
      rewrite <- app_assoc. cbn [app]. unfold unresolved.
      f_equal. f_equal. lia.
Qed.

(** The entry of a node after the first loop. *)
Lemma grouped_lookup cc keys : ∀ nodes c,
  grouped cc nodes keys !! c =
  match nodes !! c, owned_by cc c keys with
  | None, [] => None
  | o, ks => Some (default [] o ++ ks)
  end.
Proof.
  induction keys as [|key keys IH]; intros nodes c.
  - cbn. destruct (nodes !! c); cbn; [by rewrite app_nil_r | done].
  - cbn [grouped fold_left]. unfold owned_by. rewrite filter_cons.
    destruct (hash_Get (cacheCluster.dispatcher cc) key) as [c'|] eqn:Hc.
    + fold (grouped cc (<[c':=default [] (nodes !! c') ++ [key]]> nodes) keys).
      rewrite IH. fold (owned_by cc c keys).
      destruct (decide (c' = c)) as [->|Hne].
      * rewrite lookup_insert_eq, decide_True by done. cbn.
        rewrite <- app_assoc. cbn.
        destruct (nodes !! c); done.
      * rewrite lookup_insert_ne by done.
        rewrite decide_False by congruence. done.
    + fold (grouped cc nodes keys). rewrite IH.
      rewrite decide_False by done. done.
Qed.

Lemma grouped_empty_lookup cc keys c ks :
  grouped cc ∅ keys !! c = Some ks ↔ owned_by cc c keys ≠ [] ∧ ks = owned_by cc c keys.
Proof.
  rewrite grouped_lookup, lookup_empty.
  destruct (owned_by cc c keys) as [|k l]; cbn.
  - split; [discriminate | intros [Hne _]; done].
  - split; [intros [= <-]; done | intros [_ ->]; done].
Qed.

(** One turn of the second loop. *)
Lemma del_step (ctx : Context) (be : BatchError.t) (c : Node) (ks : list string) s :
  cacheCluster.del_batch ctx be (c, ks) s =
  let answer := serve c (ReqDelCtx ctx ks) (world s) in
  mkOutcome (BatchError.Add be answer.1) (mkState answer.2 (heap_next s))
            [EvCall c (ReqDelCtx ctx ks) answer.1].
Proof.
  unfold cacheCluster.del_batch, bind, cacheCluster.call.
  destruct (serve c (ReqDelCtx ctx ks) (world s)) as [[e|] w]; reflexivity.
Qed.

(** The second loop: one call per entry, every error answered is added. *)
Lemma del_loop (ctx : Context) (l : list (Node * list string)) : ∀ be s,
  let o := for_range l (cacheCluster.del_batch ctx) be s in
  value o = be ++ failures (trace o) ∧
  calls (trace o) = batch_requests ctx l ∧
  lookups (trace o) = [] ∧
  length (trace o) = length l ∧
  heap_next (final o) = heap_next s.
Proof.
  induction l as [|[c ks] l IH]; intros be s.
  - cbn. by rewrite app_nil_r.
  - rewrite for_range_cons, del_step.
    destruct (serve c (ReqDelCtx ctx ks) (world s)) as [answer w] eqn:Hserve.
    cbn [fst snd value final trace].
    specialize (IH (BatchError.Add be answer) (mkState w (heap_next s))).
    cbn zeta in IH. destruct IH as (Hv & Hc & Hl & Hn & Hh).
    rewrite failures_app, calls_app, lookups_app, length_app, Hv, Hc, Hl, Hn, Hh.
    split; [|done].
    destruct answer; cbn; [by rewrite <- app_assoc | done].
Qed.

(** The default case of [DelCtx] as the two loops one after the other. *)
Lemma DelCtx_default_eq cc (ctx : Context) (k1 k2 : string) keys s :
  let ks := k1 :: k2 :: keys in
  let o := for_range (map_range (map_to_list (grouped cc ∅ ks)))
             (cacheCluster.del_batch ctx)
             (routing_errors (heap_next s) (unresolved cc ks))
             (mkState (world s) (heap_next s + N.of_nat (length (unresolved cc ks)))) in
  cacheCluster.DelCtx cc ctx ks s =
  mkOutcome (BatchError.Err (value o)) (final o) (lookup_events cc ks ++ trace o).
Proof.
  cbv zeta. unfold cacheCluster.DelCtx, bind.
  rewrite route_loop. cbn [value final trace].
  unfold ret. cbn [value final trace app BatchError.zero].
  by rewrite app_nil_r.
Qed.

(** The default case of [DelCtx] as a whole. *)
Lemma DelCtx_default cc (ctx : Context) keys s :
  2 ≤ length keys →
  let o := cacheCluster.DelCtx cc ctx keys s in
  value o =
    BatchError.Err (routing_errors (heap_next s) (unresolved cc keys) ++ failures (trace o)) ∧
  lookups (trace o) = keys ∧
  calls (trace o) = batch_requests ctx (map_range (map_to_list (grouped cc ∅ keys))).
Proof.
  intros Hlen. destruct keys as [|k1 [|k2 keys]]; [cbn in Hlen; lia .. |].
  cbn zeta. rewrite DelCtx_default_eq. cbn zeta.
  set (ks := k1 :: k2 :: keys).
  match goal with |- context [for_range ?l ?f ?be ?s1] =>
    pose proof (del_loop ctx l be s1) as Hloop end.
  cbn zeta in Hloop. destruct Hloop as (Hv & Hc & Hl & _ & _).
  cbn [value final trace].
  rewrite failures_app, lookups_app, calls_app.
  rewrite lookup_events_failures, lookup_events_lookups, lookup_events_calls.
  rewrite Hv, Hl, Hc, app_nil_r. done.
Qed.
End loops.

(** ** Single-key methods *)

Section single_key.
Context `{Externals}.
Implicit Types (cc : cacheCluster.t) (keys : list string) (s : State).

(** The body every single-key method shares. *)
Lemma lookup_then_call cc (key : string) (r : Request) :
  delegates cc key
    (let* c := cacheCluster.dispatcher_Get cc key in
     match c with
     | None => ret (cacheCluster.errNotFound cc)
     | Some c => cacheCluster.call c r
     end) r.
Proof.
  intros s. unfold bind, cacheCluster.dispatcher_Get. cbn [value final trace].
  destruct (hash_Get (cacheCluster.dispatcher cc) key) as [c|]; reflexivity.
Qed.

(** C1. Get, Set, SetWithExpire, Take and TakeWithExpire and their Ctx
    variants, for every key: when the ring has no node for the key the
    method returns the not-found sentinel of the cluster, leaves the state
    as it was and calls no node; otherwise its result, its effect and its
    only call are those of the same Ctx method, with the same arguments, on
    the node the ring found.  A method without context passes the
    background context on. *)
Theorem single_key_methods_delegate cc (ctx : Context) (key : string) (val : Val)
    (expire : Duration) (query : Query) (queryx : QueryExpire) :
  delegates cc key (cacheCluster.GetCtx cc ctx key val) (ReqGetCtx ctx key val) ∧
  delegates cc key (cacheCluster.Get cc key val) (ReqGetCtx Background key val) ∧
  delegates cc key (cacheCluster.SetCtx cc ctx key val) (ReqSetCtx ctx key val) ∧
  delegates cc key (cacheCluster.Set' cc key val) (ReqSetCtx Background key val) ∧
  delegates cc key (cacheCluster.SetWithExpireCtx cc ctx key val expire)
            (ReqSetWithExpireCtx ctx key val expire) ∧
  delegates cc key (cacheCluster.SetWithExpire cc key val expire)
            (ReqSetWithExpireCtx Background key val expire) ∧
  delegates cc key (cacheCluster.TakeCtx cc ctx val key query)
            (ReqTakeCtx ctx val key query) ∧
  delegates cc key (cacheCluster.Take cc val key query)
            (ReqTakeCtx Background val key query) ∧
  delegates cc key (cacheCluster.TakeWithExpireCtx cc ctx val key queryx)
            (ReqTakeWithExpireCtx ctx val key queryx) ∧
  delegates cc key (cacheCluster.TakeWithExpire cc val key queryx)
            (ReqTakeWithExpireCtx Background val key queryx).
Proof. repeat split; apply lookup_then_call. Qed.

(** What [delegates] says about the calls: none without a node, one with. *)
Lemma delegates_calls cc (key : string) (m : M error) (r : Request) s :
  delegates cc key m r →
  calls (trace (m s)) =
  match hash_Get (cacheCluster.dispatcher cc) key with
  | None => []
  | Some c => [(c, r)]
  end.
Proof.
  intros Hm. specialize (Hm s).
  destruct (hash_Get (cacheCluster.dispatcher cc) key) as [c|]; rewrite Hm; [|done].
  unfold cacheCluster.call. destruct (serve c r (world s)). reflexivity.
Qed.

(** C6. DelCtx and Del with no key return nil, change nothing, look nothing
    up and call no node; with one key they are a single-key method: the
    key is looked up in the ring, the delete of that one key is delegated
    to its node, and the not-found sentinel is returned when the ring has
    no node for it. *)
Theorem DelCtx_zero_and_one_key cc (ctx : Context) (key : string) :
  (∀ s, cacheCluster.DelCtx cc ctx [] s = mkOutcome None s []) ∧
  (∀ s, cacheCluster.Del cc [] s = mkOutcome None s []) ∧
  delegates cc key (cacheCluster.DelCtx cc ctx [key]) (ReqDelCtx ctx [key]) ∧
  delegates cc key (cacheCluster.Del cc [key]) (ReqDelCtx Background [key]).
Proof. repeat split; apply lookup_then_call. Qed.

(** C10. Every method without a context is its Ctx counterpart at the
    background context, with the other arguments unchanged. *)
Theorem plain_methods_pass_background cc (keys : list string) (key : string) (val : Val)
    (expire : Duration) (query : Query) (queryx : QueryExpire) :
  cacheCluster.Del cc keys = cacheCluster.DelCtx cc Background keys ∧
  cacheCluster.Get cc key val = cacheCluster.GetCtx cc Background key val ∧
  cacheCluster.Set' cc key val = cacheCluster.SetCtx cc Background key val ∧
  cacheCluster.SetWithExpire cc key val expire =
    cacheCluster.SetWithExpireCtx cc Background key val expire ∧
  cacheCluster.Take cc val key query = cacheCluster.TakeCtx cc Background val key query ∧
  cacheCluster.TakeWithExpire cc val key queryx =
    cacheCluster.TakeWithExpireCtx cc Background val key queryx.
Proof. repeat split. Qed.

End single_key.

(** ** IsNotFound *)

Section not_found.

Lemma eq_identical (e t : err) : errors.eq e t = true ↔ identical e t.
Proof.
  split.
  - destruct e, t; cbn; try discriminate.
    + intros ->%N.eqb_eq. constructor.
    + intros ->%N.eqb_eq. constructor.
    + intros [->%N.eqb_eq ->%N.eqb_eq]%andb_true_iff. constructor.
  - intros []; cbn; by rewrite ?N.eqb_refl.
Qed.

(** Induction over what an error wraps. *)
Lemma inners_ind (P : err → Prop) :
  (∀ e : err, (∀ inner : err, inner ∈ errors.inners_of e → P inner) → P e) →
  ∀ e : err, P e.
Proof.
  intros Hstep. fix IH 1. intros e. apply Hstep. apply Forall_forall.
  destruct e as [a s|a msg inner|l|ty val c m msg l]; cbn [errors.inners_of].
  - constructor.
  - constructor; [apply IH | constructor].
  - constructor.
  - revert l. fix IHl 1. intros [|y l]; constructor; [apply IH | apply IHl].
Qed.

(** One turn of the loop of [errors.Is]. *)
Lemma is'_unfold (methods : N → err → bool) (e t : err) (c : bool) :
  errors.is' methods e t c =
  (c && errors.eq e t) || errors.accepts methods e t ||
  existsb (λ inner, errors.is' methods inner t c) (errors.inners_of e).
Proof.
  destruct e as [a s|a msg inner|l|ty val cmp m msg l]; cbn [errors.is' errors.inners_of existsb].
  - by destruct (c && _), (errors.accepts _ _ _).
  - destruct (c && _), (errors.accepts _ _ _); cbn; by rewrite ?orb_false_r.
  - by destruct (c && _), (errors.accepts _ _ _).
  - destruct (c && _); [done |]. destruct (errors.accepts _ _ _); [done |]. cbn.
    induction l as [|x l IHl]; [done |]. cbn [existsb].
    by destruct (errors.is' methods x t c).
Qed.

(** The loop of [errors.Is] finds the target exactly when the error, or one
    that it wraps, equals the target or accepts it. *)
Lemma is'_matches (methods : N → err → bool) (e t : err) :
  errors.is' methods e t (errors.Comparable t) = true ↔ matches methods e t.
Proof.
  split.
  - induction e as [e IH] using inners_ind. rewrite is'_unfold.
    intros [[[Hcmp Heq]%andb_true_iff|Hacc]%orb_true_iff|Hin]%orb_true_iff.
    + apply matches_equal; [done | by apply eq_identical].
    + by apply matches_method.
    + apply existsb_exists in Hin as (inner & Hinner%list_elem_of_In & His).
      apply matches_inner with inner; [done | by apply IH].
  - induction 1 as [e t Hcmp Hid|e t Hacc|e inner t Hinner _ IH]; rewrite is'_unfold.
    + apply eq_identical in Hid. by rewrite Hcmp, Hid.
    + rewrite Hacc. by rewrite orb_true_r.
    + apply orb_true_iff. right. apply existsb_exists.
      exists inner. split; [by apply list_elem_of_In | done].
Qed.

Lemma identical_refl (t : err) : errors.Comparable t = true → identical t t.
Proof. destruct t; cbn; [constructor | constructor | discriminate | constructor]. Qed.



Context `{Externals}.


End not_found.

(** ** DelCtx with several keys *)

Section several_keys.
Context `{Externals}.
Implicit Types (cc : cacheCluster.t) (keys : list string) (s : State).

Lemma elem_of_unresolved cc keys (key : string) :
  key ∈ unresolved cc keys ↔
  key ∈ keys ∧ hash_Get (cacheCluster.dispatcher cc) key = None.
Proof. unfold unresolved. rewrite list_elem_of_filter. tauto. Qed.

Lemma elem_of_owned_by cc (c : Node) keys (key : string) :
  key ∈ owned_by cc c keys ↔
  key ∈ keys ∧ hash_Get (cacheCluster.dispatcher cc) key = Some c.
Proof. unfold owned_by. rewrite list_elem_of_filter. tauto. Qed.

Lemma routing_errors_intro (key : string) keys : ∀ a : N,
  key ∈ keys → ∃ b : N, errorString b (cacheCluster.key_not_found key) ∈ routing_errors a keys.
Proof.
  induction keys as [|k keys IH]; intros a; cbn [routing_errors].
  - by intros ?%elem_of_nil.
  - intros [->|Hin]%elem_of_cons.
    + exists a. left.
    + destruct (IH (N.succ a) Hin) as [b Hb]. exists b. by right.
Qed.

Lemma routing_errors_elim (e : err) keys : ∀ a : N,
  e ∈ routing_errors a keys →
  ∃ (b : N) (key : string), key ∈ keys ∧ e = errorString b (cacheCluster.key_not_found key).
Proof.
  induction keys as [|k keys IH]; intros a; cbn [routing_errors].
  - by intros ?%elem_of_nil.
  - intros [->|Hin]%elem_of_cons.
    + exists a, k. split; [left | done].
    + destruct (IH _ Hin) as (b & key & Hkey & ->). exists b, key. split; [by right | done].
Qed.

Lemma routing_errors_nil (a : N) keys : routing_errors a keys = [] ↔ keys = [].
Proof. by destruct keys. Qed.

Lemma elem_of_failures (e : err) (tr : list Event) :
  e ∈ failures tr ↔ ∃ (c : Node) (r : Request), EvCall c r (Some e) ∈ tr.
Proof.
  unfold failures. rewrite list_elem_of_omap. split.
  - intros ([key found|c r answer] & Hin & Heq); [done |].
    cbn in Heq. subst answer. by exists c, r.
  - intros (c & r & Hin). by exists (EvCall c r (Some e)).
Qed.

Lemma failures_nil (tr : list Event) :
  failures tr = [] ↔ ∀ (c : Node) (r : Request) (answer : error),
                       EvCall c r answer ∈ tr → answer = None.
Proof.
  split.
  - intros Hnil c r [e|] Hin; [|done].
    assert (e ∈ failures tr) as He by (apply elem_of_failures; eauto).
    rewrite Hnil in He. by apply elem_of_nil in He.
  - intros Hall. destruct (failures tr) as [|e l] eqn:Hf; [done |].
    assert (e ∈ failures tr) as (c & r & Hin)%elem_of_failures by (rewrite Hf; left).
    by specialize (Hall _ _ _ Hin).
Qed.

Lemma unresolved_nil cc keys :
  unresolved cc keys = [] ↔
  ∀ key : string, key ∈ keys → is_Some (hash_Get (cacheCluster.dispatcher cc) key).
Proof.
  split.
  - intros Hnil key Hin.
    destruct (hash_Get (cacheCluster.dispatcher cc) key) eqn:Hget; [by eexists |].
    assert (key ∈ unresolved cc keys) as Hk by by apply elem_of_unresolved.
    rewrite Hnil in Hk. by apply elem_of_nil in Hk.
  - intros Hall. destruct (unresolved cc keys) as [|k l] eqn:Hu; [done |].
    assert (k ∈ unresolved cc keys) as [Hin Hget]%elem_of_unresolved by (rewrite Hu; left).
    destruct (Hall _ Hin) as [c Hc]. congruence.
Qed.

Lemma Err_nil (be : BatchError.t) : BatchError.Err be = None ↔ be = [].
Proof. by destruct be as [|? [|? ?]]. Qed.

(** The calls of the trace of a call of [DelCtx] with several keys are all
    to [DelCtx] of a node. *)
Lemma DelCtx_calls_are_batches cc (ctx : Context) keys s (c : Node) (r : Request)
    (answer : error) :
  2 ≤ length keys →
  EvCall c r answer ∈ trace (cacheCluster.DelCtx cc ctx keys s) →
  ∃ ks : list string, r = ReqDelCtx ctx ks.
Proof.
  intros Hlen Hin.
  assert ((c, r) ∈ calls (trace (cacheCluster.DelCtx cc ctx keys s))) as Hcall.
  { unfold calls. apply list_elem_of_omap. by exists (EvCall c r answer). }
  destruct (DelCtx_default cc ctx keys s Hlen) as (_ & _ & Hcalls).
  rewrite Hcalls in Hcall. unfold batch_requests in Hcall.
  apply list_elem_of_fmap in Hcall as ([c' ks] & [= -> ->] & _). by exists ks.
Qed.

(** C2, as the code has it.  DelCtx with two or more keys returns the
    composite [BatchError.Err] of exactly these errors, in this order: one
    routing error for each key without a node, whose text quotes that key,
    then the error of each delegated batch delete that failed, as the node
    returned it.  No such error is left out and nothing else is put in.
    The error of a failed batch is not tied to the keys of the batch. *)
Theorem DelCtx_collects_errors cc (ctx : Context) keys s :
  2 ≤ length keys →
  let o := cacheCluster.DelCtx cc ctx keys s in
  let errs := routing_errors (heap_next s) (unresolved cc keys) ++ failures (trace o) in
  value o = BatchError.Err errs ∧
  (∀ key : string,
     key ∈ keys → hash_Get (cacheCluster.dispatcher cc) key = None →
     ∃ a : N, errorString a (cacheCluster.key_not_found key) ∈ errs) ∧
  (∀ (c : Node) (r : Request) (e : err), EvCall c r (Some e) ∈ trace o → e ∈ errs) ∧
  (∀ e : err,
     e ∈ errs →
     (∃ (a : N) (key : string),
        key ∈ keys ∧ hash_Get (cacheCluster.dispatcher cc) key = None ∧
        e = errorString a (cacheCluster.key_not_found key)) ∨
     (∃ (c : Node) (ks : list string), EvCall c (ReqDelCtx ctx ks) (Some e) ∈ trace o)).
Proof.
  intros Hlen o errs.
  destruct (DelCtx_default cc ctx keys s Hlen) as (Hvalue & _ & _).
  split; [exact Hvalue |]. split; [|split].
  - intros key Hin Hget.
    destruct (routing_errors_intro key (unresolved cc keys) (heap_next s)) as [a Ha].
    { by apply elem_of_unresolved. }
    exists a. apply elem_of_app. by left.
  - intros c r e Hin. apply elem_of_app. right. apply elem_of_failures. eauto.
  - intros e [Hroute|Hfail]%elem_of_app.
    + left. apply routing_errors_elim in Hroute as (a & key & Hkey & ->).
      apply elem_of_unresolved in Hkey as [Hin Hget]. by exists a, key.
    + right. apply elem_of_failures in Hfail as (c & r & Hin).
      destruct (DelCtx_calls_are_batches cc ctx keys s c r (Some e) Hlen Hin) as [ks ->].
      by exists c, ks.
Qed.

(** C3. DelCtx with two or more keys returns nil exactly when the ring
    found a node for every key and every delegated batch delete returned
    nil.  Del is DelCtx at the background context. *)
Theorem DelCtx_nil_iff_all_succeeded cc (ctx : Context) keys s :
  2 ≤ length keys →
  let o := cacheCluster.DelCtx cc ctx keys s in
  value o = None ↔
  (∀ key : string, key ∈ keys → is_Some (hash_Get (cacheCluster.dispatcher cc) key)) ∧
  (∀ (c : Node) (r : Request) (answer : error), EvCall c r answer ∈ trace o → answer = None).
Proof.
  intros Hlen o.
  destruct (DelCtx_default cc ctx keys s Hlen) as (Hvalue & _ & _).
  fold o in Hvalue. rewrite Hvalue, Err_nil.
  rewrite <- unresolved_nil, <- failures_nil.
  split.
  - intros [Hr Hf]%app_eq_nil. by apply routing_errors_nil in Hr.
  - intros [-> ->]. done.
Qed.

(** C5. DelCtx with two or more keys: no node is called twice; a node is
    called exactly when the ring gives it at least one of the keys, and the
    call is DelCtx with the context of the caller and exactly the keys the
    ring gives to that node; so a key with a node is in the batch of its
    own node and in no batch of another node. *)
Theorem DelCtx_one_batch_per_node cc (ctx : Context) keys s :
  2 ≤ length keys →
  let batches := calls (trace (cacheCluster.DelCtx cc ctx keys s)) in
  NoDup batches.*1 ∧
  (∀ (c : Node) (r : Request),
     (c, r) ∈ batches ↔ owned_by cc c keys ≠ [] ∧ r = ReqDelCtx ctx (owned_by cc c keys)) ∧
  (∀ (key : string) (c : Node),
     key ∈ keys → hash_Get (cacheCluster.dispatcher cc) key = Some c →
     (c, ReqDelCtx ctx (owned_by cc c keys)) ∈ batches ∧
     key ∈ owned_by cc c keys ∧
     ∀ (c' : Node) (ctx' : Context) (ks : list string),
       (c', ReqDelCtx ctx' ks) ∈ batches → key ∈ ks → c' = c).
Proof.
  intros Hlen batches.
  destruct (DelCtx_default cc ctx keys s Hlen) as (_ & _ & Hcalls).
  fold batches in Hcalls.
  assert (∀ (c : Node) (r : Request),
            (c, r) ∈ batches ↔
            owned_by cc c keys ≠ [] ∧ r = ReqDelCtx ctx (owned_by cc c keys)) as Hiff.
  { intros c r. rewrite Hcalls. unfold batch_requests. rewrite list_elem_of_fmap. split.
    - intros ([c' ks] & [= -> ->] & Hin). cbn.
      rewrite map_range_perm in Hin.
      apply elem_of_map_to_list, grouped_empty_lookup in Hin as [Hne ->]. done.
    - intros [Hne ->]. exists (c, owned_by cc c keys). split; [done |].
      rewrite map_range_perm. by apply elem_of_map_to_list, grouped_empty_lookup. }
  split; [|split; [exact Hiff |]].
  - rewrite Hcalls. unfold batch_requests. rewrite <- list_fmap_compose.
    change (fst ∘ _) with (@fst Node (list string)).
    rewrite map_range_perm. apply NoDup_fst_map_to_list.
  - intros key c Hin Hget.
    assert (key ∈ owned_by cc c keys) as Hown by by apply elem_of_owned_by.
    split; [|split; [exact Hown |]].
    + apply Hiff. split; [|done]. intros Hnil. rewrite Hnil in Hown.
      by apply elem_of_nil in Hown.
    + intros c' ctx' ks [_ [= _ ->]]%Hiff [_ Hget']%elem_of_owned_by. congruence.
Qed.

End several_keys.

(** ** New *)

Section construction.
Context `{Externals}.

(** C4. When the list of nodes is empty or their total weight is not
    positive, New ends in the fatal error of [log.Fatal] and returns no
    cache at all. *)
Theorem New_refuses_empty_or_weightless (c : list NodeConf) (barrier : SingleFlight)
    (st : Stat) (errNotFound : error) (opts : list Option) :
  length c = 0 ∨ (TotalWeights c ≤ 0)%Z →
  New c barrier st errNotFound opts = Fatal "no cache nodes" ∧
  ∀ cache : Cache, New c barrier st errNotFound opts ≠ Returned cache.
Proof.
  intros Hbad.
  assert (New c barrier st errNotFound opts = Fatal "no cache nodes") as ->.
  { unfold New. destruct Hbad as [Hlen|Hweight].
    - by rewrite Hlen.
    - apply Z.leb_le in Hweight. rewrite Hweight. by rewrite orb_true_r. }
  split; [done | discriminate].
Qed.

(** The other way round: every other configuration gets a cache. *)
Lemma New_returns (c : list NodeConf) (barrier : SingleFlight) (st : Stat)
    (errNotFound : error) (opts : list Option) :
  c ≠ [] → (0 < TotalWeights c)%Z →
  ∃ cache : Cache, New c barrier st errNotFound opts = Returned cache.
Proof.
  intros Hc Hweight. unfold New.
  destruct c as [|node [|node' c]]; [done | |];
    (replace (TotalWeights _ <=? 0)%Z with false by (symmetry; apply Z.leb_gt; lia));
    cbn; eauto.
Qed.

(** C9, as the code has it.  When the configuration holds exactly one node
    and its total weight is positive, New returns the node made by NewNode
    for it, not a cluster; a method called on what New returned is the
    call of that method on the node and nothing else: the trace has no ring
    lookup. *)
Theorem New_single_node_is_the_node (node : NodeConf) (barrier : SingleFlight) (st : Stat)
    (errNotFound : error) (opts : list Option) :
  (0 < TotalWeights [node])%Z →
  let cn := NewNode (NewRedis node) barrier st errNotFound opts in
  New [node] barrier st errNotFound opts = Returned (Cache_node cn) ∧
  ∀ (r : Request) (s : State),
    invoke (Cache_node cn) r s = cacheCluster.call cn r s ∧
    lookups (trace (invoke (Cache_node cn) r s)) = [] ∧
    calls (trace (invoke (Cache_node cn) r s)) = [(cn, r)].
Proof.
  intros Hweight cn. split.
  - unfold New. cbn [length Nat.eqb orb].
    replace (TotalWeights [node] <=? 0)%Z with false by (symmetry; apply Z.leb_gt; lia).
    done.
  - intros r s. cbn [invoke]. unfold cacheCluster.call.
    destruct (serve cn r (world s)). done.
Qed.

End construction.

(** ** The theorems at work on the small cluster *)

Section examples.
#[local] Existing Instances Example.types Example.externals.

(** The scenario of the spec: of four keys two go to the unreachable node;
    the two others are deleted and the error is the one of the node. *)
Example partial_failure :
  cacheCluster.DelCtx Example.cc2 tt ["a"; "bb"; "c"; "dd"]%string Example.s0 =
  mkOutcome (Some Example.refused)
            (mkState [(0, ["bb"; "dd"]%string)] 100)
            [EvLookup "a"%string (Some 1); EvLookup "bb"%string (Some 0);
             EvLookup "c"%string (Some 1); EvLookup "dd"%string (Some 0);
             EvCall 0 (ReqDelCtx tt ["bb"; "dd"]%string) None;
             EvCall 1 (ReqDelCtx tt ["a"; "c"]%string) (Some Example.refused)].
Proof. vm_compute. reflexivity. Qed.

(** A ring without nodes: every key gets its own routing error. *)
Example no_node_for_any_key :
  cacheCluster.DelCtx Example.cc0 tt ["a"; "bb"]%string Example.s0 =
  mkOutcome (Some (errorArray [errorString 100 (cacheCluster.key_not_found "a");
                               errorString 101 (cacheCluster.key_not_found "bb")]))
            (mkState [] 102)
            [EvLookup "a"%string None; EvLookup "bb"%string None].
Proof. vm_compute. reflexivity. Qed.

(** The sentinel is found behind a wrapping error, an unrelated error is
    not the sentinel, and neither is the composite of routing errors. *)
Example IsNotFound_examples :
  cacheCluster.IsNotFound Example.cc2
    (Some (wrapError 9 "get: not found" (errorString 1 "not found"))) = true ∧
  cacheCluster.IsNotFound Example.cc2 (Some Example.refused) = false ∧
  cacheCluster.IsNotFound Example.cc0
    (value (cacheCluster.DelCtx Example.cc0 tt ["a"; "bb"]%string Example.s0)) = false.
Proof. vm_compute. repeat split. Qed.



(** C2 as the spec words it fails: both keys go to the unreachable node,
    the delete of both fails, and the error returned names neither. *)
Lemma composite_error_names_no_key :
  let o := cacheCluster.DelCtx Example.cc2 tt ["a"; "b"]%string Example.s0 in
  trace o = [EvLookup "a"%string (Some 1); EvLookup "b"%string (Some 1);
             EvCall 1 (ReqDelCtx tt ["a"; "b"]%string) (Some Example.refused)] ∧
  value o = Some Example.refused ∧
  mentions Example.refused "a"%string = false ∧
  mentions Example.refused "b"%string = false.
Proof. vm_compute. repeat split. Qed.

(** The composite of the four-key call is built from its trace. *)
Lemma DelCtx_collects_errors_witness :
  2 ≤ length ["a"; "bb"; "c"; "dd"]%string ∧
  let o := cacheCluster.DelCtx Example.cc2 tt ["a"; "bb"; "c"; "dd"]%string Example.s0 in
  let errs := routing_errors 100 (unresolved Example.cc2 ["a"; "bb"; "c"; "dd"]%string)
              ++ failures (trace o) in
  value o = BatchError.Err errs.
Proof.
  split; [cbn; lia |].
  apply (DelCtx_collects_errors Example.cc2 tt ["a"; "bb"; "c"; "dd"]%string Example.s0).
  cbn; lia.
Defined.

(** Two keys of the reachable node. *)
Lemma DelCtx_nil_iff_all_succeeded_witness :
  2 ≤ length ["bb"; "dd"]%string ∧
  let o := cacheCluster.DelCtx Example.cc2 tt ["bb"; "dd"]%string Example.s0 in
  value o = None ↔
  (∀ key : string, key ∈ ["bb"; "dd"]%string →
                   is_Some (hash_Get (cacheCluster.dispatcher Example.cc2) key)) ∧
  (∀ (c : Node) (r : Request) (answer : error), EvCall c r answer ∈ trace o → answer = None).
Proof.
  split; [cbn; lia |].
  apply (DelCtx_nil_iff_all_succeeded Example.cc2 tt ["bb"; "dd"]%string Example.s0).
  cbn; lia.
Defined.

(** Four keys, two nodes, two batches. *)
Lemma DelCtx_one_batch_per_node_witness :
  2 ≤ length ["a"; "bb"; "c"; "dd"]%string ∧
  NoDup (calls (trace (cacheCluster.DelCtx Example.cc2 tt ["a"; "bb"; "c"; "dd"]%string
                         Example.s0))).*1.
Proof.
  split; [cbn; lia |].
  apply (DelCtx_one_batch_per_node Example.cc2 tt ["a"; "bb"; "c"; "dd"]%string Example.s0).
  cbn; lia.
Defined.

(** Two nodes of weight zero. *)
Lemma New_refuses_empty_or_weightless_witness :
  (length [(0%Z, 1%nat); (0%Z, 2%nat)] = 0 ∨ (TotalWeights [(0%Z, 1%nat); (0%Z, 2%nat)] ≤ 0)%Z) ∧
  New [(0%Z, 1%nat); (0%Z, 2%nat)] tt tt Example.notFound [] = Fatal "no cache nodes"%string.
Proof.
  assert (length [(0%Z, 1%nat); (0%Z, 2%nat)] = 0 ∨ (TotalWeights [(0%Z, 1%nat); (0%Z, 2%nat)] ≤ 0)%Z)
    as Hbad by (right; vm_compute; discriminate).
  split; [exact Hbad |].
  apply (@New_refuses_empty_or_weightless Example.types Example.externals [(0%Z, 1%nat); (0%Z, 2%nat)] tt tt Example.notFound []).
  exact Hbad.
Defined.

(** C9 as the spec words it fails: a single node of weight zero is exactly
    one node, and New returns nothing. *)
Lemma New_single_weightless_node_is_fatal :
  length [(0%Z, 1%nat)] = 1 ∧
  New [(0%Z, 1%nat)] tt tt Example.notFound [] = Fatal "no cache nodes"%string ∧
  ∀ cache : Cache, New [(0%Z, 1%nat)] tt tt Example.notFound [] ≠ Returned cache.
Proof. vm_compute. repeat split. discriminate. Qed.

(** One node of weight 100. *)
Lemma New_single_node_is_the_node_witness :
  (0 < TotalWeights [(100%Z, 1%nat)])%Z ∧
  New [(100%Z, 1%nat)] tt tt Example.notFound [] = Returned (Cache_node 1).
Proof.
  split; [vm_compute; reflexivity |].
  apply (@New_single_node_is_the_node Example.types Example.externals (100%Z, 1%nat) tt tt Example.notFound []).
  vm_compute; reflexivity.
Defined.

End examples.

(** ** More about DelCtx with several keys *)

Section several_keys_more.
Context `{Externals}.
Implicit Types (cc : cacheCluster.t) (keys : list string) (s : State).

(** Appending one key to the entry of a node adds that key to the keys the
    map holds, and nothing else. *)
Lemma insert_append_concat (nodes : gmap Node (list string)) (c : Node) (key : string) :
  concat (map_to_list (<[c := default [] (nodes !! c) ++ [key]]> nodes)).*2 ≡ₚ
  concat (map_to_list nodes).*2 ++ [key].
Proof.
  destruct (nodes !! c) as [l|] eqn:Hc; cbn [default].
  - rewrite <- (insert_delete_eq nodes).
    rewrite map_to_list_insert by apply lookup_delete_eq.
    rewrite <- (map_to_list_delete nodes c l Hc).
    cbn. rewrite <- !app_assoc. f_equiv. apply Permutation_app_comm.
  - rewrite map_to_list_insert by done. cbn. apply Permutation_cons_append.
Qed.

(** The first loop loses no key and invents none. *)
Lemma grouped_concat cc keys : ∀ nodes : gmap Node (list string),
  unresolved cc keys ++ concat (map_to_list (grouped cc nodes keys)).*2 ≡ₚ
  concat (map_to_list nodes).*2 ++ keys.
Proof.
  induction keys as [|key keys IH]; intros nodes.
  - cbn. by rewrite app_nil_r.
  - unfold unresolved. rewrite filter_cons. cbn [grouped fold_left].
    destruct (hash_Get (cacheCluster.dispatcher cc) key) as [c|] eqn:Hc.
    + rewrite decide_False by done.
      fold (grouped cc (<[c:=default [] (nodes !! c) ++ [key]]> nodes) keys).
      fold (unresolved cc keys).
      rewrite IH, insert_append_concat, <- app_assoc. done.
    + rewrite decide_True by done.
      fold (grouped cc nodes keys). fold (unresolved cc keys).
      cbn. rewrite IH. apply Permutation_middle.
Qed.

Lemma batch_requests_keys (ctx : Context) (l : list (Node * list string)) :
  concat (map (λ call, Request_keys call.2) (batch_requests ctx l)) = concat l.*2.
Proof. induction l as [|[c ks] l IH]; [done | cbn; f_equal; exact IH]. Qed.

(** X1. DelCtx with two or more keys accounts for every key it is given,
    as often as it is given: the keys of the call are, up to their order,
    the keys without a node together with the keys of all the batches sent
    to the nodes. *)
Theorem DelCtx_accounts_for_every_key cc (ctx : Context) keys s :
  2 ≤ length keys →
  let batches := calls (trace (cacheCluster.DelCtx cc ctx keys s)) in
  keys ≡ₚ unresolved cc keys ++ concat (map (λ call, Request_keys call.2) batches).
Proof.
  intros Hlen batches.
  destruct (DelCtx_default cc ctx keys s Hlen) as (_ & _ & Hcalls).
  subst batches. rewrite Hcalls, batch_requests_keys, map_range_perm.
  rewrite grouped_concat, map_to_list_empty. done.
Qed.

(** X2. DelCtx with two or more keys looks every key up before it calls any
    node: its trace is one lookup per key, in the order of the call and
    with repeated keys looked up again, followed by calls only. *)
Theorem DelCtx_looks_up_before_it_calls cc (ctx : Context) keys s :
  2 ≤ length keys →
  ∃ tr : list Event,
    trace (cacheCluster.DelCtx cc ctx keys s) = lookup_events cc keys ++ tr ∧
    lookups tr = [] ∧
    length tr = length (calls (trace (cacheCluster.DelCtx cc ctx keys s))).
Proof.
  intros Hlen. destruct keys as [|k1 [|k2 keys]]; [cbn in Hlen; lia .. |].
  rewrite DelCtx_default_eq. cbn zeta. cbn [trace].
  match goal with |- context [for_range ?l ?f ?be ?s1] =>
    pose proof (del_loop ctx l be s1) as Hloop; set (o := for_range l f be s1) in * end.
  cbn zeta in Hloop. destruct Hloop as (_ & Hc & Hl & Hn & _).
  exists (trace o). split; [done |]. split; [done |].
  rewrite calls_app, lookup_events_calls, Hc, Hn. cbn.
  unfold batch_requests. by rewrite length_map.
Qed.

Lemma unresolved_all cc keys :
  (∀ key : string, key ∈ keys → hash_Get (cacheCluster.dispatcher cc) key = None) →
  unresolved cc keys = keys.
Proof.
  intros Hall. induction keys as [|key keys IH]; [done |].
  unfold unresolved. rewrite filter_cons, decide_True by (apply Hall; left).
  f_equal. apply IH. intros k Hk. apply Hall. by right.
Qed.

Lemma owned_by_all cc (c : Node) keys :
  (∀ key : string, key ∈ keys → hash_Get (cacheCluster.dispatcher cc) key = Some c) →
  owned_by cc c keys = keys.
Proof.
  intros Hall. induction keys as [|key keys IH]; [done |].
  unfold owned_by. rewrite filter_cons, decide_True by (apply Hall; left).
  f_equal. apply IH. intros k Hk. apply Hall. by right.
Qed.

Lemma owned_by_none cc (c : Node) keys :
  (∀ key : string, key ∈ keys → hash_Get (cacheCluster.dispatcher cc) key ≠ Some c) →
  owned_by cc c keys = [].
Proof.
  intros Hall. induction keys as [|key keys IH]; [done |].
  unfold owned_by. rewrite filter_cons, decide_False by (apply Hall; left).
  apply IH. intros k Hk. apply Hall. by right.
Qed.

Lemma Err_several (be : BatchError.t) :
  2 ≤ length be → BatchError.Err be = Some (errorArray be).
Proof. destruct be as [|? [|? ?]]; cbn; [lia .. | done]. Qed.

Lemma routing_errors_length (a : N) keys : length (routing_errors a keys) = length keys.
Proof. revert a. induction keys as [|k keys IH]; intros a; cbn; [done | by rewrite IH]. Qed.

(** X3. When the ring finds a node for none of two or more keys, DelCtx
    calls no node and leaves the world as it was; it returns the array of
    one fresh routing error per key, in the order of the keys, not the
    not-found sentinel that the same call with a single key returns. *)
Theorem DelCtx_without_any_node cc (ctx : Context) keys s :
  2 ≤ length keys →
  (∀ key : string, key ∈ keys → hash_Get (cacheCluster.dispatcher cc) key = None) →
  cacheCluster.DelCtx cc ctx keys s =
  mkOutcome (Some (errorArray (routing_errors (heap_next s) keys)))
            (mkState (world s) (heap_next s + N.of_nat (length keys)))
            (map (λ key, EvLookup key None) keys).
Proof.
  intros Hlen Hnone. destruct keys as [|k1 [|k2 keys]]; [cbn in Hlen; lia .. |].
  rewrite DelCtx_default_eq. cbn zeta. set (ks := k1 :: k2 :: keys) in *.
  assert (grouped cc ∅ ks = ∅) as ->.
  { apply map_eq. intros c. rewrite grouped_lookup, !lookup_empty, owned_by_none; [done |].
    intros key Hin. rewrite (Hnone key Hin). done. }
  rewrite map_to_list_empty.
  assert (map_range [] = []) as -> by (apply Permutation_nil_r, map_range_perm).
  rewrite unresolved_all by done. cbn [for_range]. unfold ret. cbn [value final trace].
  rewrite Err_several by (rewrite routing_errors_length; exact Hlen).
  rewrite app_nil_r. f_equal.
  unfold lookup_events. apply map_ext_in. intros key Hin%list_elem_of_In.
  by rewrite (Hnone key Hin).
Qed.

(** X4. When the ring gives all of two or more keys to one node, DelCtx makes
    a single call, the delete of all the keys in their order on that node,
    and returns what the node answers, untouched. *)
Theorem DelCtx_all_keys_on_one_node cc (ctx : Context) keys (c : Node) s :
  2 ≤ length keys →
  (∀ key : string, key ∈ keys → hash_Get (cacheCluster.dispatcher cc) key = Some c) →
  let o := cacheCluster.call c (ReqDelCtx ctx keys) s in
  cacheCluster.DelCtx cc ctx keys s =
  mkOutcome (value o) (final o) (map (λ key, EvLookup key (Some c)) keys ++ trace o).
Proof.
  intros Hlen Hall. destruct keys as [|k1 [|k2 keys]]; [cbn in Hlen; lia .. |].
  rewrite DelCtx_default_eq. cbn zeta. set (ks := k1 :: k2 :: keys) in *.
  assert (grouped cc ∅ ks = {[c := ks]}) as ->.
  { apply map_eq. intros c'. rewrite grouped_lookup, lookup_empty.
    destruct (decide (c' = c)) as [->|Hne].
    - rewrite owned_by_all, lookup_singleton_eq by done. done.
    - rewrite owned_by_none, lookup_singleton_ne by
        (try done; intros key Hin; rewrite (Hall key Hin); congruence). done. }
  rewrite map_to_list_singleton.
  assert (map_range [(c, ks)] = [(c, ks)]) as ->
    by (apply Permutation_singleton_r, map_range_perm).
  assert (unresolved cc ks = []) as ->.
  { apply unresolved_nil. intros key Hin. rewrite (Hall key Hin). by eexists. }
  rewrite for_range_cons, del_step. cbn [for_range routing_errors length N.of_nat].
  unfold ret, cacheCluster.call. rewrite N.add_0_r.
  cbn [value final trace world heap_next].
  destruct (serve c (ReqDelCtx ctx ks) (world s)) as [answer w].
  cbn [value final trace fst snd world heap_next]. rewrite app_nil_r.
  f_equal.
  - by destruct answer.
  - f_equal. unfold lookup_events. apply map_ext_in. intros key Hin%list_elem_of_In.
    by rewrite (Hall key Hin).
Qed.

End several_keys_more.

(** ** More about IsNotFound and New *)

Section not_found_more.
Context `{Externals}.
Implicit Types (cc : cacheCluster.t) (s : State).

(** A sentinel that is nil or of a comparable type is found in itself. *)
Lemma Is_reflexive (methods : N → err → bool) (t : error) :
  (∀ t' : err, t = Some t' → errors.Comparable t' = true) → errors.Is methods t t = true.
Proof.
  intros Hcmp. destruct t as [t|]; [|done]. cbn [errors.Is].
  apply is'_matches, matches_equal; [by apply Hcmp | by apply identical_refl, Hcmp].
Qed.

Lemma Is_errorArray (methods : N → err → bool) (l : list err) (t : error) :
  errors.Is methods (Some (errorArray l)) t = false.
Proof. destruct t as [t|]; [|done]. cbn. by rewrite andb_false_r. Qed.

(** What a method with one key answers when the ring has no node for it. *)
Lemma delegates_unroutable cc (key : string) (m : M error) (r : Request) s :
  delegates cc key m r →
  hash_Get (cacheCluster.dispatcher cc) key = None →
  m s = mkOutcome (cacheCluster.errNotFound cc) s [EvLookup key None].
Proof. intros Hm Hnone. specialize (Hm s). by rewrite Hnone in Hm. Qed.

(** X5. Whatever method of the cluster is called with exactly one key, when
    the ring has no node for that key no node is called and the error
    returned is one that IsNotFound of the same cluster accepts, provided
    the sentinel of the cluster is nil or of a comparable type, one whose
    values are [==] to themselves, as every pointer is. *)
Theorem unroutable_key_is_not_found cc (r : Request) (key : string) s :
  Request_keys r = [key] →
  hash_Get (cacheCluster.dispatcher cc) key = None →
  (∀ t : err, cacheCluster.errNotFound cc = Some t → errors.Comparable t = true) →
  let o := invoke (Cache_cluster cc) r s in
  calls (trace o) = [] ∧ cacheCluster.IsNotFound cc (value o) = true.
Proof.
  intros Hkeys Hnone Hcmp o.
  assert (o = mkOutcome (cacheCluster.errNotFound cc) s [EvLookup key None]) as ->.
  { subst o. destruct r; cbn in Hkeys; simplify_eq; cbn [invoke];
      (eapply delegates_unroutable; [apply lookup_then_call | done]). }
  split; [done |]. cbn [value]. by apply Is_reflexive.
Qed.

(** X6. An error that IsNotFound accepts is still accepted after it has
    been wrapped by [fmt.Errorf] with a wrapping verb, any number of
    times. *)
Theorem IsNotFound_survives_wrapping cc (e : err) (layers : list (N * string)) :
  cacheCluster.IsNotFound cc (Some e) = true →
  cacheCluster.IsNotFound cc (Some (wrapped layers e)) = true.
Proof.
  unfold cacheCluster.IsNotFound, errors.Is.
  destruct (cacheCluster.errNotFound cc) as [t|]; [|done].
  intros He. induction layers as [|[a msg] layers IH]; [done |].
  cbn [wrapped fold_right fst snd]. fold (wrapped layers e).
  rewrite is'_unfold. cbn [errors.inners_of existsb]. rewrite IH. by rewrite !orb_true_r.
Qed.

(** X7. When DelCtx with two or more keys meets two or more failures, keys
    without a node and failed batches counted together, IsNotFound of the
    cluster rejects the error it returns, whatever the single failures
    were. *)
Theorem several_failures_are_not_not_found cc (ctx : Context) (keys : list string) s :
  2 ≤ length keys →
  let o := cacheCluster.DelCtx cc ctx keys s in
  2 ≤ length (unresolved cc keys) + length (failures (trace o)) →
  cacheCluster.IsNotFound cc (value o) = false.
Proof.
  intros Hlen o Hfail.
  destruct (DelCtx_default cc ctx keys s Hlen) as (Hvalue & _ & _).
  fold o in Hvalue. rewrite Hvalue, Err_several.
  - apply Is_errorArray.
  - rewrite length_app, routing_errors_length. exact Hfail.
Qed.

(** X8. What New does with every configuration: it is fatal exactly when
    the list is empty or the total weight is not positive; otherwise it
    returns a node for a list of one and a cluster for a longer list, and
    the cluster carries the sentinel New was given. *)
Theorem New_by_cases (c : list NodeConf) (barrier : SingleFlight) (st : Stat)
    (errNotFound : error) (opts : list Option) :
  match New c barrier st errNotFound opts with
  | Fatal msg => msg = "no cache nodes"%string ∧ (length c = 0 ∨ (TotalWeights c ≤ 0)%Z)
  | Returned (Cache_node cn) =>
      length c = 1 ∧ (0 < TotalWeights c)%Z ∧
      ∃ node : NodeConf, c = [node] ∧ cn = NewNode (NewRedis node) barrier st errNotFound opts
  | Returned (Cache_cluster cc) =>
      2 ≤ length c ∧ (0 < TotalWeights c)%Z ∧ cacheCluster.errNotFound cc = errNotFound
  end.
Proof.
  unfold New.
  destruct (Z.leb_spec (TotalWeights c) 0) as [Hw|Hw].
  - rewrite orb_true_r. split; [done | by right].
  - rewrite orb_false_r. destruct c as [|node [|node' c]]; cbn.
    + split; [done | by left].
    + repeat split; [done |]. by exists node.
    + repeat split; [lia | done].
Qed.

End not_found_more.

(** ** The server manager of package main *)

Section manager.
Context `{main.Externals}.
Implicit Types (s : option main.Server) (v : main.Server) (ctx : main.Context) (w : main.World).

(** X9. Manager.Start never returns an error: when it returns, it returns
    nil.  When the server is not nil, says it is open and its Start returns
    an error, Manager.Start panics with that error; when its Start returns
    neither an error nor a server, Manager.Start panics on the call of ID on
    nil. *)
Theorem Manager_Start_nil_or_panic ctx s w :
  let done := (main.Manager_Start ctx s w).1.1 in
  (∀ e : err, done ≠ main.Normal (Some e)) ∧
  (∀ v : main.Server,
     s = Some v → (main.Server_IsOpen v w).1 = true →
     let started := (main.Server_Start v ctx (main.Server_IsOpen v w).2).1 in
     (∀ e : err, started.2 = Some e → done = main.Panic (main.panic_error e)) ∧
     (started = (None, None) → done = main.Panic main.nil_dereference)).
Proof.
  cbn zeta. split.
  - destruct s as [v|]; cbn [main.Manager_Start]; [|done].
    destruct (main.Server_IsOpen v w) as [[] w1]; cbn [negb fst snd]; [|done].
    destruct (main.Server_Start v ctx w1) as [[[v'|] [e|]] w2]; cbn [fst snd];
      try destruct (main.Server_ID v' w2) as [key w3]; done.
  - intros v -> Hopen. cbn [main.Manager_Start].
    destruct (main.Server_IsOpen v w) as [open w1]. cbn [fst snd] in *. subst open.
    cbn [negb].
    destruct (main.Server_Start v ctx w1) as [[[v'|] [e|]] w2]; cbn [fst snd];
      try destruct (main.Server_ID v' w2) as [key w3]; cbn [fst snd].
    all: split; [intros e0 [= <-] || intros e0 [=] | intros [=]]; done.
Qed.

(** X10. Manager.Start calls Start on the server it is given and on no
    other, with the context it is given, and only when the server is not
    nil and says it is open; such a server is always started. *)
Theorem Manager_Start_starts_open_servers_only ctx s w (v : main.Server) (ctx' : main.Context) :
  main.CallStart v ctx' ∈ (main.Manager_Start ctx s w).2 ↔
  s = Some v ∧ ctx' = ctx ∧ (main.Server_IsOpen v w).1 = true.
Proof.
  destruct s as [v0|]; cbn [main.Manager_Start].
  - destruct (main.Server_IsOpen v0 w) as [[] w1] eqn:Hopen; cbn [negb fst snd].
    + assert (main.CallStart v ctx' ∈
                [main.CallIsOpen v0; main.CallStart v0 ctx] ↔
              Some v0 = Some v ∧ ctx' = ctx ∧ (main.Server_IsOpen v w).1 = true) as Hiff.
      { rewrite !elem_of_cons, elem_of_nil. split.
        - intros [?|[[= -> ->]|[]]]; [done |]. by rewrite Hopen.
        - intros ([= <-] & -> & _). right. by left. }
      destruct (main.Server_Start v0 ctx w1) as [[[v1|] [e|]] w2];
        try destruct (main.Server_ID v1 w2) as [key w3]; cbn [fst snd]; try exact Hiff.
      rewrite <- Hiff, !elem_of_cons, elem_of_nil. split.
      * intros [?|[?|[?|[]]]]; [by left | right; by left | done].
      * intros [?|[?|[]]]; [by left | right; by left].
    + rewrite elem_of_cons, elem_of_nil. split.
      * by intros [?|?].
      * intros ([= <-] & _ & Hop). rewrite Hopen in Hop. done.
  - rewrite elem_of_nil. split; [done | by intros (? & _)].
Qed.

(** X11. The ID Manager.Start asks for is the ID of the server that Start
    returned, which need not be the server that was started; it is asked
    once, last, and only after a Start without error. *)
Theorem Manager_Start_asks_the_started_server ctx s w (v' : main.Server) :
  main.CallID v' ∈ (main.Manager_Start ctx s w).2 ↔
  ∃ v : main.Server,
    s = Some v ∧ (main.Server_IsOpen v w).1 = true ∧
    (main.Server_Start v ctx (main.Server_IsOpen v w).2).1 = (Some v', None).
Proof.
  destruct s as [v0|]; cbn [main.Manager_Start].
  - destruct (main.Server_IsOpen v0 w) as [[] w1] eqn:Hopen; cbn [negb fst snd].
    + destruct (main.Server_Start v0 ctx w1) as [[[v1|] [e|]] w2] eqn:Hstart;
        try destruct (main.Server_ID v1 w2) as [key w3]; cbn [fst snd].
      all: rewrite !elem_of_cons, elem_of_nil.
      all: split;
        [intros Hin
        |intros (v & [= <-] & _ & Heq); rewrite Hopen in Heq; cbn [fst snd] in Heq;
         rewrite Hstart in Heq; cbn [fst snd] in Heq; simplify_eq].
      * destruct Hin as [?|[?|[]]]; done.
      * destruct Hin as [?|[?|[[= ->]|[]]]]; [done .. |].
        exists v0. split; [done |]. rewrite Hopen. cbn [fst snd]. by rewrite Hstart.
      * right. right. by left.
      * destruct Hin as [?|[?|[]]]; done.
      * destruct Hin as [?|[?|[]]]; done.
    + rewrite elem_of_cons, elem_of_nil. split.
      * by intros [?|?].
      * intros (v & [= <-] & Hop & _). rewrite Hopen in Hop. done.
  - rewrite elem_of_nil. split; [done | by intros (? & ? & _)].
Qed.

Lemma start_each_calls (l : list main.Server) ctx : ∀ w,
  (main.start_each l ctx w).2 = map (λ v, main.CallStart v ctx) l.
Proof.
  induction l as [|v l IH]; intros w; [done |].
  cbn [main.start_each map].
  destruct (main.Server_Start v ctx w) as [r w1]. specialize (IH w1).
  destruct (main.start_each l ctx w1) as [w2 tr]. cbn in *. by rewrite IH.
Qed.

(** X12. The loop of the package function Start calls Start on every server
    of the list, in the order of the list, once each, and calls nothing
    else: it does not ask IsOpen and goes on after a Start that failed.
    For the list the package is initialised with these are Server1 and
    Server2, the second of which says it is not open, and the world is left
    as it was. *)
Theorem Start_starts_every_server ctx w (l : list main.Server) :
  (main.start_each l ctx w).2 = map (λ v, main.CallStart v ctx) l ∧
  main.Start ctx w = (w, [main.CallStart main.ptr_Server1 ctx; main.CallStart main.ptr_Server2 ctx]) ∧
  (main.Server_IsOpen main.ptr_Server2 w).1 = false.
Proof. split; [apply start_each_calls | done]. Qed.

End manager.

(** ** The service group *)

Section service_group.
Context `{service.Externals}.
Implicit Types (sg : service.ServiceGroup) (l : list service.Service) (w : service.World).

Lemma services_fold_Add l : ∀ sg,
  service.services (fold_left service.Add l sg) = rev l ++ service.services sg ∧
  service.stopped (fold_left service.Add l sg) = service.stopped sg.
Proof.
  induction l as [|x l IH]; intros sg; [done |].
  cbn [fold_left rev]. destruct (IH (service.Add sg x)) as [-> ->].
  cbn. by rewrite <- app_assoc.
Qed.

Lemma stop_each_calls l : ∀ w,
  service.stop_each l w =
  (fold_left (λ w service, service.Service_Stop service w) l w, map service.CallStop l).
Proof.
  induction l as [|x l IH]; intros w; [done |].
  cbn [service.stop_each fold_left map]. by rewrite IH.
Qed.

(** The slice of a new group after the additions of [l]. *)
Lemma services_group_of l : service.services (service.group_of l) = rev l.
Proof.
  unfold service.group_of.
  destruct (services_fold_Add l service.NewServiceGroup) as [-> _].
  cbn [service.services service.NewServiceGroup]. by rewrite app_nil_r.
Qed.

(** X13. The services of a group are stopped in the reverse of the order in
    which they were added, each once for each time it was added: doStop on
    a new group to which the services of [l] were added one by one calls
    Stop on the last of [l] first and on the first of [l] last, and the
    world goes through their Stop methods in that order. *)
Theorem doStop_reverse_order l w :
  service.doStop (service.group_of l) w =
  (fold_left (λ w service, service.Service_Stop service w) (rev l) w,
   map service.CallStop (rev l)).
Proof. unfold service.doStop. rewrite services_group_of. apply stop_each_calls. Qed.

(** X14. Stop works once: after a first Stop of a group, a further Stop
    calls nothing and changes nothing, also for the services added to the
    group after the first Stop. *)
Theorem Stop_only_once sg w l (w' : service.World) :
  let sg' := fold_left service.Add l (service.Stop sg w).1.1 in
  service.Stop sg' w' = (sg', w', []).
Proof.
  cbn zeta. unfold service.Stop at 1, service.stopOnce at 1.
  destruct (services_fold_Add l (service.Stop sg w).1.1) as [_ ->].
  assert (service.stopped (service.Stop sg w).1.1 = true) as ->; [|done].
  unfold service.Stop, service.stopOnce.
  destruct (service.stopped sg) eqn:Hs; [done |].
  by destruct (service.doStop sg w).
Qed.

Lemma wrappers_stop_nothing l : ∀ w,
  Forall service.is_wrapper l →
  fold_left (λ w service, service.Service_Stop service w) l w = w.
Proof.
  induction l as [|x l IH]; intros w Hall; [done |].
  apply Forall_cons in Hall as [Hx Hl]. cbn [fold_left].
  destruct x; [| |done]; cbn; by apply IH.
Qed.

(** X15. Stopping a group made only of services from WithStart and
    WithStarter leaves the world as it was, although Stop is called on each
    of them. *)
Theorem doStop_of_wrappers l w :
  Forall service.is_wrapper l →
  service.doStop (service.group_of l) w = (w, map service.CallStop (rev l)).
Proof.
  intros Hall. unfold service.doStop. rewrite services_group_of, stop_each_calls.
  f_equal. apply wrappers_stop_nothing. by apply Forall_rev.
Qed.

End service_group.

(** ** The further theorems at work *)

Section examples_more.
#[local] Existing Instances Example.types Example.externals.
#[local] Existing Instances Example2.main_types Example2.main_externals.
#[local] Existing Instances Example2.service_externals.

(** Four keys on two nodes: none is lost. *)
Lemma DelCtx_accounts_for_every_key_witness :
  2 ≤ length ["a"; "bb"; "c"; "dd"]%string ∧
  ["a"; "bb"; "c"; "dd"]%string ≡ₚ
  unresolved Example.cc2 ["a"; "bb"; "c"; "dd"]%string ++
  concat (map (λ call, Request_keys call.2)
              (calls (trace (cacheCluster.DelCtx Example.cc2 tt ["a"; "bb"; "c"; "dd"]%string
                               Example.s0)))).
Proof.
  split; [cbn; lia |].
  apply (DelCtx_accounts_for_every_key Example.cc2 tt ["a"; "bb"; "c"; "dd"]%string Example.s0).
  cbn; lia.
Defined.

(** Four lookups, then two calls. *)
Lemma DelCtx_looks_up_before_it_calls_witness :
  2 ≤ length ["a"; "bb"; "c"; "dd"]%string ∧
  ∃ tr : list Event,
    trace (cacheCluster.DelCtx Example.cc2 tt ["a"; "bb"; "c"; "dd"]%string Example.s0) =
      lookup_events Example.cc2 ["a"; "bb"; "c"; "dd"]%string ++ tr ∧
    lookups tr = [] ∧
    length tr = length (calls (trace (cacheCluster.DelCtx Example.cc2 tt
                                        ["a"; "bb"; "c"; "dd"]%string Example.s0))).
Proof.
  split; [cbn; lia |].
  apply (DelCtx_looks_up_before_it_calls Example.cc2 tt ["a"; "bb"; "c"; "dd"]%string
           Example.s0).
  cbn; lia.
Defined.

(** A ring without nodes. *)
Lemma DelCtx_without_any_node_witness :
  2 ≤ length ["a"; "bb"]%string ∧
  (∀ key : string, key ∈ ["a"; "bb"]%string →
                   hash_Get (cacheCluster.dispatcher Example.cc0) key = None) ∧
  value (cacheCluster.DelCtx Example.cc0 tt ["a"; "bb"]%string Example.s0) =
  Some (errorArray (routing_errors 100 ["a"; "bb"]%string)).
Proof.
  assert (∀ key : string, key ∈ ["a"; "bb"]%string →
                          hash_Get (cacheCluster.dispatcher Example.cc0) key = None) as Hnone
    by (intros key _; reflexivity).
  split; [cbn; lia |]. split; [exact Hnone |].
  rewrite (DelCtx_without_any_node Example.cc0 tt ["a"; "bb"]%string Example.s0);
    [reflexivity | cbn; lia | exact Hnone].
Defined.

(** Two keys of the unreachable node. *)
Lemma DelCtx_all_keys_on_one_node_witness :
  2 ≤ length ["a"; "c"]%string ∧
  (∀ key : string, key ∈ ["a"; "c"]%string →
                   hash_Get (cacheCluster.dispatcher Example.cc2) key = Some 1) ∧
  value (cacheCluster.DelCtx Example.cc2 tt ["a"; "c"]%string Example.s0) =
  Some Example.refused.
Proof.
  assert (∀ key : string, key ∈ ["a"; "c"]%string →
                          hash_Get (cacheCluster.dispatcher Example.cc2) key = Some 1) as Hall.
  { intros key [->|[->|[]%elem_of_nil]%elem_of_cons]%elem_of_cons; reflexivity. }
  split; [cbn; lia |]. split; [exact Hall |].
  rewrite (DelCtx_all_keys_on_one_node Example.cc2 tt ["a"; "c"]%string 1 Example.s0);
    [reflexivity | cbn; lia | exact Hall].
Defined.

(** A Get on the ring without nodes. *)
Lemma unroutable_key_is_not_found_witness :
  Request_keys (ReqGetCtx tt "a" 5) = ["a"%string] ∧
  hash_Get (cacheCluster.dispatcher Example.cc0) "a" = None ∧
  (∀ t : err, cacheCluster.errNotFound Example.cc0 = Some t → errors.Comparable t = true) ∧
  cacheCluster.IsNotFound Example.cc0
    (value (invoke (Cache_cluster Example.cc0) (ReqGetCtx tt "a" 5) Example.s0)) = true.
Proof.
  assert (∀ t : err, cacheCluster.errNotFound Example.cc0 = Some t →
                     errors.Comparable t = true) as Hcmp
    by (intros t [= <-]; reflexivity).
  split; [reflexivity |]. split; [reflexivity |]. split; [exact Hcmp |].
  apply (@unroutable_key_is_not_found Example.types Example.externals
           Example.cc0 (@ReqGetCtx Example.types tt "a"%string 5) "a"%string Example.s0);
    [reflexivity | reflexivity | exact Hcmp].
Defined.

(** The sentinel under two layers. *)
Lemma IsNotFound_survives_wrapping_witness :
  cacheCluster.IsNotFound Example.cc2 (Some (errorString 1 "not found")) = true ∧
  cacheCluster.IsNotFound Example.cc2
    (Some (wrapped [(8%N, "take"%string); (9%N, "get"%string)] (errorString 1 "not found")))
  = true.
Proof.
  split; [reflexivity |].
  apply (IsNotFound_survives_wrapping Example.cc2 (errorString 1 "not found")
           [(8%N, "take"%string); (9%N, "get"%string)]).
  reflexivity.
Defined.

(** Two keys without a node are two failures. *)
Lemma several_failures_are_not_not_found_witness :
  2 ≤ length ["a"; "bb"]%string ∧
  2 ≤ length (unresolved Example.cc0 ["a"; "bb"]%string) +
      length (failures (trace (cacheCluster.DelCtx Example.cc0 tt ["a"; "bb"]%string
                                 Example.s0))) ∧
  cacheCluster.IsNotFound Example.cc0
    (value (cacheCluster.DelCtx Example.cc0 tt ["a"; "bb"]%string Example.s0)) = false.
Proof.
  split; [cbn; lia |]. split; [vm_compute; lia |].
  apply (several_failures_are_not_not_found Example.cc0 tt ["a"; "bb"]%string Example.s0);
    [cbn; lia | vm_compute; lia].
Defined.

(** A server written elsewhere that is open and fails to start. *)
Lemma Manager_Start_nil_or_panic_witness :
  (main.Server_IsOpen Example2.failing []).1 = true ∧
  (main.Server_Start Example2.failing tt (main.Server_IsOpen Example2.failing []).2).1.2 =
    Some Example2.start_failed ∧
  (main.Manager_Start tt (Some Example2.failing) []).1.1 =
    main.Panic (main.panic_error Example2.start_failed).
Proof.
  split; [reflexivity |]. split; [reflexivity |].
  apply (proj2 (@Manager_Start_nil_or_panic Example2.main_types Example2.main_externals
                  tt (Some Example2.failing) [])
               Example2.failing eq_refl eq_refl).
  reflexivity.
Defined.

(** Two wrappers. *)
Lemma doStop_of_wrappers_witness :
  Forall service.is_wrapper [service.WithStart "web"%string; service.WithStarter "queue"%string] ∧
  service.doStop
    (service.group_of [service.WithStart "web"%string; service.WithStarter "queue"%string])
    ["up"%string] =
  (["up"%string],
   [service.CallStop (service.WithStarter "queue"%string);
    service.CallStop (service.WithStart "web"%string)]).
Proof.
  assert (Forall service.is_wrapper
            [service.WithStart "web"%string; service.WithStarter "queue"%string]) as Hall
    by (repeat constructor).
  split; [exact Hall |].
  apply (@doStop_of_wrappers Example2.service_externals _ ["up"%string] Hall).
Defined.

(** A server written elsewhere that fails to start makes the manager panic;
    one that starts is asked its ID; a closed one is left alone. *)
Example Manager_Start_examples :
  main.Manager_Start tt (Some (main.foreign 0)) [] =
    (main.Panic (main.panic_error Example2.start_failed), [],
     [main.CallIsOpen (main.foreign 0); main.CallStart (main.foreign 0) tt]) ∧
  main.Manager_Start tt (Some (main.foreign 1)) [] =
    (main.Panic main.nil_dereference, [1],
     [main.CallIsOpen (main.foreign 1); main.CallStart (main.foreign 1) tt]) ∧
  main.Manager_Start tt (Some (main.foreign 2)) [] =
    (main.Normal None, [2],
     [main.CallIsOpen (main.foreign 2); main.CallStart (main.foreign 2) tt;
      main.CallID (main.foreign 2)]) ∧
  main.Manager_Start tt (Some (main.foreign 3)) [] =
    (main.Normal None, [], [main.CallIsOpen (main.foreign 3)]) ∧
  main.Manager_Start tt (Some main.ptr_Server2) [] =
    (main.Normal None, [], [main.CallIsOpen main.ptr_Server2]) ∧
  main.Manager_Start tt None [] = (main.Normal None, [], []).
Proof. repeat split. Qed.

(** Three services stopped last in, first out, then no more. *)
Example Stop_examples :
  let l := [service.implemented "a"%string; service.WithStart "b"%string;
            service.implemented "c"%string] in
  service.Stop (service.group_of l) [] =
    (service.mkGroup (rev l) true, ["stop c"%string; "stop a"%string],
     map service.CallStop (rev l)) ∧
  service.Stop (service.Stop (service.group_of l) []).1.1 [] =
    (service.mkGroup (rev l) true, [], []).
Proof. vm_compute. repeat split. Qed.

End examples_more.
